(** * The Chrome inspector client of Brackets

    A shallow embedding of [src/LiveDevelopment/Inspector/ChromeInspector.js]
    and the properties of its command dispatcher, message router and
    connection handling.

    The module keeps its state in five variables ([_messageId],
    [_messageCallbacks], [_connectDeferred], [_port], [_portId]) and in
    what [init] writes on [exports]; every function of the module becomes
    a computation in a small monad that threads this state, collects the
    calls made to the outside world (console, jQuery, the Chrome port) in
    a trace, and may throw.

    Conventions.  The functions handed to the module (callbacks of
    commands, listeners of events) are opaque: a call of one is recorded in
    the trace, and is taken to return without calling back into the module.
    The messages of the port have the types of the remote debugging
    protocol: an id is a number, a result an object, a method a string.
    The domains, those of the description and those named by the methods
    of events, are domains of the protocol: none bears a name that
    [exports] has from elsewhere ([config], the functions of the module,
    what every object inherits), so that [exports[domain]] is a domain
    object put there by [init] or [undefined].
    [getDebuggableWindows], [on] and [off] only forward to Chrome and to
    jQuery and are left out.

    The file system of the Chrome shell, [src/chromeShell/fs.js], follows
    in a module of its own, [fs], with its properties at the end. *)

From Stdlib Require Import ZArith String Ascii.
From stdpp Require Import gmap strings list sorting.

#[local] Set Warnings "-register-all".
Local Open Scope string_scope.
Local Open Scope Z_scope.

(** ** JavaScript values *)

(** Functions are opaque.  A caller's function is named by a number; the
    only closure the module itself stores in [_messageCallbacks] is the one
    of [_send] that resolves the Deferred it has just created. *)
Inductive func :=
| UserFn (n : nat)
| ResolveFn (deferred : nat).

(** Numbers are restricted to the integers, which is all the module
    computes with; an object is the list of its own properties, in the
    order in which JavaScript lists them. *)
Inductive value :=
| VUndefined
| VNull
| VBool (b : bool)
| VNum (n : Z)
| VStr (s : string)
| VFun (f : func)
| VArr (items : list value)
| VObj (props : list (string * value)).

Definition object := list (string * value).

(** [o[k]] read on an object: [undefined] when [k] is not a property. *)
Fixpoint get_own (o : object) (k : string) : option value :=
  match o with
  | [] => None
  | (k', v) :: o' => if String.eqb k' k then Some v else get_own o' k
  end.

Definition get (o : object) (k : string) : value :=
  match get_own o k with
  | Some v => v
  | None => VUndefined
  end.

(** [k in o] for an own property. *)
Definition has_key (o : object) (k : string) : bool :=
  match get_own o k with
  | Some _ => true
  | None => false
  end.

(** An object lists its properties in this order: the names that are array
    indices first, by their value, then the other names in the order in
    which they were added.  A name is an array index when it is the decimal
    notation, without a leading zero, of an integer below 2^32 - 1. *)
Definition digit (c : ascii) : option N :=
  let n := N_of_ascii c in
  if ((48 <=? n) && (n <=? 57))%N then Some (n - 48)%N else None.

Fixpoint decimal (s : string) (acc : N) : option N :=
  match s with
  | EmptyString => Some acc
  | String c s' => digit c ≫= λ d, decimal s' (10 * acc + d)%N
  end.

Definition array_index (k : string) : option N :=
  match k with
  | EmptyString => None
  | String c k' =>
      if Ascii.eqb c "0" && negb (String.eqb k' "") then None
      else decimal k 0 ≫= λ n, if (n <? 2 ^ 32 - 1)%N then Some n else None
  end.

(** A new name [k] is listed before the name [k'] of the object. *)
Definition listed_before (k k' : string) : bool :=
  match array_index k, array_index k' with
  | Some n, Some n' => (n <? n')%N
  | Some _, None => true
  | None, _ => false
  end.

(** [o[k] = v] when [o] has the property [k]: it keeps its place. *)
Fixpoint overwrite (o : object) (k : string) (v : value) : object :=
  match o with
  | [] => []
  | (k', v') :: o' =>
      if String.eqb k' k then (k', v) :: o' else (k', v') :: overwrite o' k v
  end.

(** [o[k] = v] when [k] is new: an array index goes to its place among the
    array indices, any other name comes last. *)
Fixpoint place (o : object) (k : string) (v : value) : object :=
  match o with
  | [] => [(k, v)]
  | (k', v') :: o' =>
      if listed_before k k' then (k, v) :: (k', v') :: o'
      else (k', v') :: place o' k v
  end.

(** [o[k] = v]. *)
Definition assign (o : object) (k : string) (v : value) : object :=
  if has_key o k then overwrite o k v else place o k v.

(** ToBoolean. *)
Definition truthy (v : value) : bool :=
  match v with
  | VUndefined | VNull => false
  | VBool b => b
  | VNum n => negb (n =? 0)
  | VStr s => negb (String.eqb s "")
  | VFun _ | VArr _ | VObj _ => true
  end.

(** [typeof v === "function"]. *)
Definition is_function (v : value) : option func :=
  match v with
  | VFun f => Some f
  | _ => None
  end.

(** [n + 1] on the Number that holds a counter.  A Number is a double: the
    sum is exact while the result is at most 2^53; 2^53 + 1 is not
    representable and rounds (ties to even) back to 2^53.  The counters of
    the module start at 0 or 1 and only ever grow by this operation, so they
    stay in the range 0 .. 2^53 where this definition is the addition of
    doubles. *)
Definition MAX_EXACT : Z := 2 ^ 53.

Definition js_succ (n : Z) : Z :=
  if n <? MAX_EXACT then n + 1 else n.

(** ** The protocol description (Inspector.json) *)

(** A parameter of a command.  JSON leaves [optional] out for a required
    parameter; [optional = false] stands for that. *)
Record ParameterDescriptor := mkParameter {
  name : string;
  optional : bool
}.

(** The descriptor as the object [JSON.parse] produced. *)
Definition descriptor_object (d : ParameterDescriptor) : value :=
  VObj [("name", VStr (name d)); ("optional", VBool (optional d))].

(** [parameters] is the empty list for a command declared without
    parameters: [for (i in undefined)] runs no iteration. *)
Record CommandDescriptor := mkCommand {
  command_name : string;
  parameters : list ParameterDescriptor
}.

Record Domain := mkDomain {
  domain : string;
  commands : list CommandDescriptor
}.

(** ** The outside world *)

(** The port [chrome.runtime.connect] returned for the name
    ["port-" + port_index]. *)
Record Port := mkPort { port_index : Z }.

(** The text of a console message, kept as the operands of the string
    concatenation that builds it. *)
Inductive piece :=
| PStr (s : string)
| PVal (v : value)
| PJson (v : value).

(** What [triggerHandler] is called on: [$exports], or the jQuery set
    around [exports[domain]], which holds the domain object of that name,
    given by its number, or nothing when [exports] has no such object. *)
Inductive target :=
| TExports
| TObject (o : option nat).

Inductive listener_kind := OnDisconnect | OnMessage.

(** The calls made to the outside world.  [Log] is [console.log],
    [Assert c text] is [console.assert(c, text)], which prints [text] when
    [c] is false and nothing otherwise; [Trigger] is jQuery's
    [triggerHandler], [Invoke] the call of a function stored in
    [_messageCallbacks]; the others are the methods of the port, of
    [chrome.runtime] and of a Deferred. *)
Inductive effect :=
| Log (text : list piece)
| Assert (condition : bool) (text : list piece)
| Trigger (on : target) (type : value) (data : value)
| PostMessage (port : Port) (message : value) (callback : func)
| Invoke (f : func) (argument : value)
| PortDisconnect (port : Port)
| AddListener (port : Port) (k : listener_kind)
| RemoveListener (port : Port) (k : listener_kind)
| RuntimeSendMessage (message : value)
| RuntimeConnect (port : Port)
| NewDeferred (d : nat)
| Resolve (d : nat) (v : value)
| Reject (d : nat) (v : value).

(** ** What the module exports *)

(** A command function [_send.bind(undefined, method, signature)]. *)
Record Bound := mkBound {
  bound_method : string;
  bound_signature : list ParameterDescriptor
}.

(** A domain object: the [{}] of line 315, a new one for every domain at
    every call of [init], with the command functions put on it.  Objects
    are told apart by [object_id]: the listeners of remote events are
    attached to the object, not to its name. *)
Record DomainObject := mkDomainObject {
  object_id : nat;
  bound : gmap string Bound
}.

(** [exports], as far as [init] writes it: [config], the domain objects
    under the names of their domains, and the number of domain objects
    created so far, which is the [object_id] of the next one. *)
Record Exports := mkExports {
  config : value;
  members : gmap string DomainObject;
  objects : nat
}.

(** [exports] before [init] has been called. *)
#[global] Instance Exports_empty : Empty Exports := mkExports VUndefined ∅ 0.

(** ** Module state *)

(** [_messageCallbacks] is an object used as a map from ids to functions.
    Its property names are the decimal notations of the ids, one for each
    integer: the map is keyed by the integers themselves. *)
Record State := mkState {
  _messageId : Z;
  _messageCallbacks : gmap Z func;
  _connectDeferred : option nat;
  _port : option Port;
  _portId : Z;
  (** number of Deferred objects created so far; names the next one *)
  deferreds : nat;
  exports : Exports
}.

(** The state when the module has been loaded: [_port] and
    [_connectDeferred] are still undefined. *)
Definition initial : State :=
  {| _messageId := 1;
     _messageCallbacks := ∅;
     _connectDeferred := None;
     _port := None;
     _portId := 0;
     deferreds := 0;
     exports := ∅ |}.

(** ** Computations *)

Inductive exn :=
| TypeError (text : string).

Inductive completion (A : Type) :=
| Normal (a : A)
| Throw (e : exn).
Arguments Normal {A} a.
Arguments Throw {A} e.

Record Run (A : Type) := mkRun {
  outcome : completion A;
  final : State;
  trace : list effect
}.
Arguments mkRun {A} _ _ _.
Arguments outcome {A} _.
Arguments final {A} _.
Arguments trace {A} _.

Definition M (A : Type) : Type := State → Run A.

(** The monad is used through stdpp's [mret], [x ← m; k] and [m;; k]. *)
#[global] Instance M_ret : MRet M := λ A a s, mkRun (Normal a) s [].

#[global] Instance M_bind : MBind M := λ A B k m s,
  match m s with
  | mkRun (Normal a) s' t =>
      match k a s' with
      | mkRun o s'' t' => mkRun o s'' (t ++ t')%list
      end
  | mkRun (Throw e) s' t => mkRun (Throw e) s' t
  end.

#[global] Instance M_throw : MThrow exn M := λ A e s, mkRun (Throw e) s [].

Definition emit (e : effect) : M unit := λ s, mkRun (Normal tt) s [e].
Definition read {A} (f : State → A) : M A := λ s, mkRun (Normal (f s)) s [].
Definition write (f : State → State) : M unit :=
  λ s, mkRun (Normal tt) (f s) [].

(** State updates, one per module variable. *)
Definition set_messageId (n : Z) (s : State) : State :=
  mkState n (_messageCallbacks s) (_connectDeferred s) (_port s) (_portId s)
          (deferreds s) (exports s).
Definition set_messageCallbacks (t : gmap Z func) (s : State) : State :=
  mkState (_messageId s) t (_connectDeferred s) (_port s) (_portId s)
          (deferreds s) (exports s).
Definition set_connectDeferred (d : option nat) (s : State) : State :=
  mkState (_messageId s) (_messageCallbacks s) d (_port s) (_portId s)
          (deferreds s) (exports s).
Definition set_port (p : option Port) (s : State) : State :=
  mkState (_messageId s) (_messageCallbacks s) (_connectDeferred s) p
          (_portId s) (deferreds s) (exports s).
Definition set_portId (n : Z) (s : State) : State :=
  mkState (_messageId s) (_messageCallbacks s) (_connectDeferred s) (_port s)
          n (deferreds s) (exports s).
Definition set_deferreds (n : nat) (s : State) : State :=
  mkState (_messageId s) (_messageCallbacks s) (_connectDeferred s) (_port s)
          (_portId s) n (exports s).
Definition set_exports (e : Exports) (s : State) : State :=
  mkState (_messageId s) (_messageCallbacks s) (_connectDeferred s) (_port s)
          (_portId s) (deferreds s) e.

(** [new $.Deferred()]. *)
Definition new_Deferred : M nat :=
  d ← read deferreds;
  write (set_deferreds (S d));;
  emit (NewDeferred d);;
  mret d.

(** [function _trace(msg) { console.log(msg); }] *)
Definition _trace (msg : list piece) : M unit := emit (Log msg).

(** [v.k] for a value [v]: reading a property of [undefined] or [null]
    throws; only own properties of objects are modelled, every other read
    gives [undefined]. *)
Definition get_prop (v : value) (k : string) : M value :=
  match v with
  | VUndefined | VNull => mthrow (TypeError ("Cannot read property " +:+ k))
  | VObj o => mret (get o k)
  | _ => mret VUndefined
  end.

(** [a === true]. *)
Definition is_true (v : value) : bool :=
  match v with
  | VBool true => true
  | _ => false
  end.

(** ** The dispatcher *)

(** [_verifySignature(signature, value)], lines 87-92; the parameter
    [value] is [value0] here. *)
Definition _verifySignature (signature value0 : value) : M bool :=
  match value0 with
  | VUndefined =>
      opt ← get_prop signature "optional";
      nm ← get_prop signature "name";
      emit (Assert (is_true opt) [PStr "Missing argument: "; PVal nm]);;
      mret true
  | _ => mret true
  end.

(** [args[i]]: [undefined] past the end of the array. *)
Definition arg_at (args : list value) (i : nat) : value :=
  match args !! i with
  | Some v => v
  | None => VUndefined
  end.

(** The loop of lines 131-135 from index [i] on, [rest] being
    [signature[i], signature[i+1], ...].  Line 132 hands [args[i]] to
    [_verifySignature] as its first argument and [signature[i]] as its
    second. *)
Fixpoint build_params (args : list value) (i : nat)
    (rest : list ParameterDescriptor) (params : object) : M object :=
  match rest with
  | [] => mret params
  | d :: rest' =>
      _verifySignature (arg_at args i) (descriptor_object d) ≫= λ ok : bool,
      build_params args (S i) rest'
        (if ok then assign params (name d) (arg_at args i) else params)
  end.

(** The arguments after the signature, split into the positional ones and
    the callback (lines 115-124): a last argument that is a function is
    popped. *)
Definition split_callback (varargs : list value) : list value * option func :=
  match last varargs with
  | Some v =>
      match is_function v with
      | Some f => (removelast varargs, Some f)
      | None => (varargs, None)
      end
  | None => (varargs, None)
  end.

(** [_send(method, signature, varargs)], lines 100-150.  The result is the
    returned promise: the number of its Deferred, or [None] for
    [undefined]. *)
Definition _send (method : string) (signature : list ParameterDescriptor)
    (varargs : list value) : M (option nat) :=
  port ← read _port;
  match port with
  | None => mret None
  | Some p =>
      emit (Assert true
        [PStr "You must connect to the WebSocket before sending messages."]);;
      let '(args, cb) := split_callback varargs in
      '(callback, promise) ←
        match cb with
        | Some f => mret (f, None)
        | None => d ← new_Deferred; mret (ResolveFn d, Some d)
        end;
      id ← read _messageId;
      write (set_messageId (js_succ id));;
      table ← read _messageCallbacks;
      write (set_messageCallbacks (<[id := callback]> table));;
      params ← build_params args 0 signature [];
      let message :=
        VObj [("cmd", VStr "sendCommand");
              ("method", VStr method);
              ("params", VObj params);
              ("id", VNum id)] in
      _trace [PStr "Executing command "; PVal (VNum id); PStr ": ";
              PVal (VStr method); PStr " "; PJson (VObj params)];;
      emit (PostMessage p message callback);;
      mret promise
  end.

(** ** Connection handling *)

(** jQuery reads the type of the event once it has found an object in the
    set: [undefined] has none to read. *)
Definition rejects (on : target) (type : value) : bool :=
  match on, type with
  | TObject None, _ => false
  | _, VUndefined => true
  | _, _ => false
  end.

(** [$(x).triggerHandler(type, data)].  On the empty set it does nothing;
    on an object it throws when the type is [undefined]. *)
Definition triggerHandler (on : target) (type data : value) : M unit :=
  emit (Trigger on type data);;
  if rejects on type
  then mthrow (TypeError "Cannot read property type of undefined")
  else mret tt.

(** [_onDisconnect()], lines 153-157: the port closed. *)
Definition _onDisconnect : M unit :=
  _trace [PStr "** Port disconnected **"];;
  triggerHandler TExports (VStr "disconnect") VUndefined;;
  write (set_port None).

(** [_onError(error)], lines 160-167. *)
Definition _onError (error : value) : M unit :=
  pending ← read _connectDeferred;
  match pending with
  | Some d =>
      _trace [PStr "** !!! Port error: "; PJson error; PStr " **"];;
      emit (Reject d VUndefined);;
      write (set_connectDeferred None)
  | None => mret tt
  end;;
  triggerHandler TExports (VStr "error") (VArr [error]).

(** [_onConnect()], lines 170-177. *)
Definition _onConnect : M unit :=
  _trace [PStr "** Port connected **"];;
  pending ← read _connectDeferred;
  match pending with
  | Some d =>
      emit (Resolve d VUndefined);;
      write (set_connectDeferred None)
  | None => mret tt
  end;;
  triggerHandler TExports (VStr "connect") VUndefined.

(** [disconnect()], lines 254-262.  The promise it returns is already
    resolved. *)
Definition disconnect : M unit :=
  port ← read _port;
  match port with
  | Some p =>
      emit (PortDisconnect p);;
      emit (RemoveListener p OnDisconnect);;
      emit (RemoveListener p OnMessage);;
      write (set_port None)
  | None => mret tt
  end.

(** [connect()], lines 268-285, up to the request to the extension: the
    [done] callback of the resolved promise of [disconnect] runs at once. *)
Definition connect : M unit :=
  disconnect;;
  emit (RuntimeSendMessage (VObj [("cmd", VStr "attachDebugger")])).

(** The callback of that request, lines 272-283, called with a result whose
    [error] property is [error]. *)
Definition attachDebugger_callback (error : value) : M unit :=
  if truthy error then _onError error
  else
    n ← read _portId;
    write (set_portId (js_succ n));;
    emit (RuntimeConnect (mkPort n));;
    write (set_port (Some (mkPort n)));;
    emit (AddListener (mkPort n) OnDisconnect);;
    emit (AddListener (mkPort n) OnMessage);;
    _onConnect.

(** [connectToURL()], lines 289-300; the result names the Deferred whose
    promise is returned. *)
Definition connectToURL : M nat :=
  pending ← read _connectDeferred;
  match pending with
  | Some d => emit (Reject d (VStr "CANCEL"))
  | None => mret tt
  end;;
  d ← new_Deferred;
  write (set_connectDeferred (Some d));;
  connect;;
  mret d.

(** [connected()], line 324: the port itself, [None] for [null] and
    [undefined]. *)
Definition connected : M (option Port) := read _port.

(** ** The message router *)

(** A message received from the port: [id] is a number, [result] an
    object, [method] a string, each when present; [error] and [params] are
    any value, [undefined] when absent. *)
Record Message := mkMessage {
  msg_id : option Z;
  msg_error : value;
  msg_result : option object;
  msg_method : option string;
  msg_params : value
}.

Definition field {A} (k : string) (inj : A → value) (x : option A) : object :=
  match x with
  | Some a => [(k, inj a)]
  | None => []
  end.

(** The message as a value, for the listeners of ["message"]. *)
Definition message_object (m : Message) : value :=
  VObj (field "id" VNum (msg_id m)
        ++ (if msg_error m is VUndefined then [] else [("error", msg_error m)])
        ++ field "result" VObj (msg_result m)
        ++ field "method" VStr (msg_method m)
        ++ (if msg_params m is VUndefined then []
            else [("params", msg_params m)]))%list.

(** Lines 192-197: [if (!result.result) result.result = {type: "undefined"}]. *)
Definition normalize (result : object) : object :=
  if truthy (get result "result") then result
  else assign result "result" (VObj [("type", VStr "undefined")]).

(** [_messageCallbacks[response.id]]: an absent id reads the property
    ["undefined"], which no command ever wrote. *)
Definition callback_for (id : option Z) (table : gmap Z func) : option func :=
  i ← id; table !! i.

Definition delete_callback (id : option Z) (table : gmap Z func)
    : gmap Z func :=
  match id with
  | Some i => delete i table
  | None => table
  end.

(** A call of a function stored in [_messageCallbacks]; the closure of
    [_send] (lines 121-123) resolves its Deferred. *)
Definition invoke (f : func) (argument : value) : M unit :=
  emit (Invoke f argument);;
  match f with
  | ResolveFn d => emit (Resolve d argument)
  | UserFn _ => mret tt
  end.

(** [s.split(".")].  The array always has a first element: the result is
    that element and the list of the elements after it. *)
Fixpoint split_dot (s : string) : string * list string :=
  match s with
  | EmptyString => (EmptyString, [])
  | String c s' =>
      let '(piece, pieces) := split_dot s' in
      if Ascii.eqb c "." then (EmptyString, piece :: pieces)
      else (String c piece, pieces)
  end.

(** [a[i]] on an array of strings. *)
Definition string_at (a : list string) (i : nat) : value :=
  match a !! i with
  | Some s => VStr s
  | None => VUndefined
  end.

Definition id_value (id : option Z) : value :=
  match id with
  | Some i => VNum i
  | None => VUndefined
  end.

(** [_onMessage(response)], lines 186-210.  The message is an object the
    function writes to: the result is the message as it is afterwards. *)
Definition _onMessage (response : Message) : M Message :=
  triggerHandler TExports (VStr "message") (VArr [message_object response]);;
  if truthy (msg_error response) then
    _trace [PStr "  !!! Error: "; PJson (msg_error response)];;
    triggerHandler TExports (VStr "error") (VArr [msg_error response]);;
    mret response
  else
    match msg_result response with
    | Some result =>
        let result := normalize result in
        let response :=
          mkMessage (msg_id response) (msg_error response) (Some result)
                    (msg_method response) (msg_params response) in
        _trace [PStr "  Result ("; PVal (id_value (msg_id response));
                PStr "): "; PJson (get result "result")];;
        table ← read _messageCallbacks;
        match callback_for (msg_id response) table with
        | Some callback =>
            invoke callback (VObj result);;
            write (λ s, set_messageCallbacks
                          (delete_callback (msg_id response)
                             (_messageCallbacks s)) s);;
            mret response
        | None => mret response
        end
    | None =>
        match msg_method response with
        | Some method =>
            _trace [PStr "  Event: "; PVal (VStr method)];;
            let '(domain, others) := split_dot method in
            let method := string_at others 0 in
            on ← read (λ s, members (exports s) !! domain);
            triggerHandler (TObject (object_id <$> on)) method
                           (msg_params response);;
            mret response
        | None =>
            _trace [PStr "  Event: "; PVal VUndefined];;
            mthrow (TypeError "Cannot read property split")
        end
    end.

(** ** Command binding *)

(** The inner loop of [init], lines 316-319. *)
Definition bind_commands (d : Domain) : gmap string Bound :=
  foldl (λ domain_object command,
           <[command_name command :=
               mkBound (domain d +:+ "." +:+ command_name command)
                       (parameters command)]> domain_object)
        ∅ (commands d).

(** One turn of the outer loop, lines 314-319: a new object under the name
    of the domain. *)
Definition bind_domain (exports : Exports) (d : Domain) : Exports :=
  mkExports (config exports)
            (<[domain d := mkDomainObject (objects exports) (bind_commands d)]>
               (members exports))
            (S (objects exports)).

(** [init(theConfig)], lines 306-321, on the parsed
    [InspectorJSON.domains]. *)
Definition init (theConfig : value) (domains : list Domain)
    (exports : Exports) : Exports :=
  foldl bind_domain
        (mkExports theConfig (members exports) (objects exports)) domains.

(** [exports[domain][command](varargs)]; calling what is not there throws. *)
Definition call (exports : Exports) (domain command : string)
    (varargs : list value) : M (option nat) :=
  match members exports !! domain with
  | Some domain_object =>
      match bound domain_object !! command with
      | Some b => _send (bound_method b) (bound_signature b) varargs
      | None => mthrow (TypeError "undefined is not a function")
      end
  | None => mthrow (TypeError "Cannot read property of undefined")
  end.

(** ** Runs of the module *)

(** What can happen to the module: one of its entry points is called by a
    client, or one of the callbacks it has registered is called by Chrome. *)
Inductive action :=
| Command (method : string) (signature : list ParameterDescriptor)
          (varargs : list value)
| Receive (response : Message)
| PortClosed
| Disconnect
| Connect
| ConnectToURL
| AttachDebuggerReply (error : value)
| Init (theConfig : value) (domains : list Domain).

Definition perform (a : action) : M unit :=
  match a with
  | Command method signature varargs => _send method signature varargs;; mret tt
  | Receive response => _onMessage response;; mret tt
  | PortClosed => _onDisconnect
  | Disconnect => disconnect
  | Connect => connect
  | ConnectToURL => connectToURL;; mret tt
  | AttachDebuggerReply error => attachDebugger_callback error
  | Init theConfig domains =>
      write (λ s, set_exports (init theConfig domains (exports s)) s)
  end.

(** Actions happen one after the other, each in a turn of its own: an
    exception ends the turn, not the run. *)
Fixpoint run (actions : list action) (s : State) : State * list effect :=
  match actions with
  | [] => (s, [])
  | a :: actions' =>
      let r := perform a s in
      let '(s', t) := run actions' (final r) in
      (s', (trace r ++ t)%list)
  end.

(** The envelopes handed to the port, and their ids. *)
Definition envelope (e : effect) : option value :=
  match e with
  | PostMessage _ message _ => Some message
  | _ => None
  end.

Definition envelopes (t : list effect) : list value := omap envelope t.

Definition envelope_id (message : value) : option Z :=
  match message with
  | VObj o => match get o "id" with VNum n => Some n | _ => None end
  | _ => None
  end.

Definition sent_ids (t : list effect) : list Z :=
  omap envelope_id (envelopes t).

(** The functions of [_messageCallbacks] that were called. *)
Definition invocation (e : effect) : option (func * value) :=
  match e with
  | Invoke f v => Some (f, v)
  | _ => None
  end.

Definition invocations (t : list effect) : list (func * value) :=
  omap invocation t.

(** The assertions that failed. *)
Definition failed_assertion (e : effect) : option (list piece) :=
  match e with
  | Assert false text => Some text
  | _ => None
  end.

Definition failed_assertions (t : list effect) : list (list piece) :=
  omap failed_assertion t.

(** ** Notions used in the statements *)

(** The object the loop of lines 131-135 builds, as a function of the
    positional arguments. *)
Fixpoint params_from (args : list value) (i : nat)
    (rest : list ParameterDescriptor) (params : object) : object :=
  match rest with
  | [] => params
  | d :: rest' => params_from args (S i) rest'
        (assign params (name d) (arg_at args i))
  end.

(** Every id of the table has been allocated: it is below the counter. *)
Definition table_below (s : State) : Prop :=
  map_Forall (λ id _, id < _messageId s) (_messageCallbacks s).

(** Modelled from the spec: the EventSubscription store.  Listeners of
    remote events are registered outside of this module, with jQuery, on
    the domain objects: [$(Inspector.Page).on(name, listener)].  jQuery
    reads the name up to its first separator as the type of the event and
    what follows as namespaces.  The store is the list of the listeners,
    each with the object it was attached to, its type and its namespaces.
    The types are names of events of the protocol, words of letters and
    digits, none of them the name of an event of the browser, which jQuery
    may map to another.  A call of [triggerHandler] on an object with such
    a type calls the listeners attached to that object for that type,
    whatever their namespaces, in the order of their registration, with the
    data of the call. *)
Record Subscription := mkSubscription {
  sub_object : nat;
  sub_type : string;
  sub_namespaces : list string;
  sub_listener : func
}.

(** The name a listener was registered under. *)
Definition sub_event (sub : Subscription) : string :=
  foldl (λ name namespace, name +:+ "." +:+ namespace)
        (sub_type sub) (sub_namespaces sub).

(** The name an event is triggered under: [triggerHandler] finds
    listeners for a string only. *)
Definition event_type (type : value) : option string :=
  match type with
  | VStr s => Some s
  | _ => None
  end.

Definition registered_for (o : nat) (type : option string)
    (sub : Subscription) : Prop :=
  sub_object sub = o ∧ Some (sub_type sub) = type.

#[global] Instance registered_for_dec o type sub :
  Decision (registered_for o type sub) := and_dec _ _.

(** Modelled from the spec: what [triggerHandler] does with the store. *)
Definition delivered (subs : list Subscription) (e : effect)
    : list (func * value) :=
  match e with
  | Trigger (TObject (Some o)) type data =>
      (λ sub, (sub_listener sub, data)) <$>
        filter (registered_for o (event_type type)) subs
  | _ => []
  end.

(** The listeners of remote events called in a trace, with their argument. *)
Definition notified (subs : list Subscription) (t : list effect)
    : list (func * value) :=
  t ≫= delivered subs.

(** The split the specification describes: at the first separator, into
    what is before it and what is after it. *)
Fixpoint split_first_separator (s : string) : string * option string :=
  match s with
  | EmptyString => (EmptyString, None)
  | String c s' =>
      if Ascii.eqb c "." then (EmptyString, Some s')
      else let '(before, after) := split_first_separator s' in
           (String c before, after)
  end.

(** The description of scenario A: domain [Page] with the command
    [navigate] and its required parameter [url]. *)
Definition page_schema : list Domain :=
  [mkDomain "Page" [mkCommand "navigate" [mkParameter "url" false]]].

(** The envelope of lines 138-143. *)
Definition send_message (method : string) (params : object) (id : Z) : value :=
  VObj [("cmd", VStr "sendCommand"); ("method", VStr method);
        ("params", VObj params); ("id", VNum id)].

(** The two console messages of [_send]. *)
Definition send_check : effect :=
  Assert true
    [PStr "You must connect to the WebSocket before sending messages."].

Definition send_log (method : string) (params : object) (id : Z) : effect :=
  Log [PStr "Executing command "; PVal (VNum id); PStr ": ";
       PVal (VStr method); PStr " "; PJson (VObj params)].

(** [Page.reload], whose two parameters are optional. *)
Definition reload_schema : list Domain :=
  [mkDomain "Page"
     [mkCommand "reload" [mkParameter "ignoreCache" true;
                          mkParameter "scriptToEvaluateOnLoad" true]]].

(** A first connection: [connect] is called and the extension answers its
    request without an error. *)
Definition connecting : list action :=
  [Connect; AttachDebuggerReply VUndefined].

(** The module connected for the first time. *)
Definition connected_first : State := (run connecting initial).1.

(** A client that connects and then sends [n] commands. *)
Definition flood (n : nat) : list action :=
  (connecting ++ replicate n (Command "Page.enable" [] []))%list.

(** A session with a spontaneous closure and a reconnection in the middle;
    the command sent while the port is closed goes nowhere. *)
Definition reconnecting_session : list action :=
  [Connect; AttachDebuggerReply VUndefined;
   Command "Page.enable" [] [VFun (UserFn 0)];
   Command "Page.navigate" [mkParameter "url" false]
           [VStr "http://example.com"];
   PortClosed;
   Command "Page.reload" [] [];
   ConnectToURL; AttachDebuggerReply VUndefined;
   Command "Page.reload" [] []].

(** Two attempts to connect of which the first is never answered, then a
    command without a callback and the response to it. *)
Definition cancelling_session : list action :=
  [ConnectToURL; ConnectToURL; AttachDebuggerReply VUndefined;
   Command "Page.reload" [] [];
   Receive (mkMessage (Some 1) VUndefined (Some []) None VUndefined)].

(** Scenario A: [Page.navigate("http://example.com", cb)] as the first
    command of a connected client, and the response to it. *)
Definition scenario_A : M (option nat) :=
  call (init VUndefined page_schema ∅) "Page" "navigate"
       [VStr "http://example.com"; VFun (UserFn 0)].

Definition scenario_A_response : Message :=
  mkMessage (Some 1) VUndefined (Some []) None VUndefined.

(** The same call without the url. *)
Definition navigate_nowhere : M (option nat) :=
  call (init VUndefined page_schema ∅) "Page" "navigate" [VFun (UserFn 0)].

(** [Page.reload(true, cb)]: the second argument is left out. *)
Definition reload_ignoring_cache : M (option nat) :=
  call (init VUndefined reload_schema ∅) "Page" "reload"
       [VBool true; VFun (UserFn 0)].

(** A response that comes late: nothing is stored under its id. *)
Definition late_response : Message :=
  mkMessage (Some 7) VUndefined (Some []) None VUndefined.

(** A message with an error next to its result. *)
Definition failed_response : Message :=
  mkMessage (Some 1) (VObj [("message", VStr "Target closed")]) (Some [])
            None VUndefined.

(** A description with two domains, and the module initialised with it
    and connected: [exports.Page] is the object 0, [exports.Network] the
    object 1. *)
Definition events_schema : list Domain :=
  [mkDomain "Page" [mkCommand "navigate" [mkParameter "url" false]];
   mkDomain "Network" []].

Definition listening : State :=
  (run (Init VUndefined events_schema :: connecting) initial).1.

(** Scenario B: the event [Page.loadEventFired] and four listeners, two of
    them registered for it on [exports.Page], the second of the two under
    the name [loadEventFired.timeline]. *)
Definition scenario_B_event : Message :=
  mkMessage None VUndefined None (Some "Page.loadEventFired")
            (VObj [("timestamp", VNum 42)]).

Definition scenario_B_listeners : list Subscription :=
  [mkSubscription 0 "loadEventFired" [] (UserFn 0);
   mkSubscription 0 "domContentEventFired" [] (UserFn 1);
   mkSubscription 1 "loadEventFired" [] (UserFn 2);
   mkSubscription 0 "loadEventFired" ["timeline"] (UserFn 3)].

(** An event whose method has two separators, and on [exports.Page] a
    listener for each reading of it: one registered under
    [frame.navigated], one under [frame]. *)
Definition nested_event : Message :=
  mkMessage None VUndefined None (Some "Page.frame.navigated")
            (VObj [("timestamp", VNum 42)]).

Definition nested_listeners : list Subscription :=
  [mkSubscription 0 "frame" ["navigated"] (UserFn 0);
   mkSubscription 0 "frame" [] (UserFn 1)].

(** An event whose method has no separator. *)
Definition bare_event : Message :=
  mkMessage None VUndefined None (Some "Page")
            (VObj [("timestamp", VNum 42)]).

(** The state after a send that stores [callback]. *)
Definition sent (callback : func) (s : State) : State :=
  set_messageCallbacks (<[_messageId s := callback]> (_messageCallbacks s))
    (set_messageId (js_succ (_messageId s)) s).

(** The pieces of the trace of [_onMessage]. *)
Definition message_event (response : Message) : effect :=
  Trigger TExports (VStr "message") (VArr [message_object response]).

(** The message after the normalisation of lines 192-197. *)
Definition normalized (response : Message) (result : object) : Message :=
  mkMessage (msg_id response) (msg_error response) (Some (normalize result))
            (msg_method response) (msg_params response).

Definition result_log (response : Message) (result : object) : effect :=
  Log [PStr "  Result ("; PVal (id_value (msg_id response)); PStr "): ";
       PJson (get (normalize result) "result")].

(** What a call of a stored function leaves in the trace. *)
Definition invoke_trace (f : func) (argument : value) : list effect :=
  match f with
  | ResolveFn d => [Invoke f argument; Resolve d argument]
  | UserFn _ => [Invoke f argument]
  end.

(** The actions that allocate an id: a command while a port is open. *)
Definition allocates (a : action) (s : State) : Prop :=
  match a with
  | Command _ _ _ => is_Some (_port s)
  | _ => False
  end.

#[global] Instance allocates_dec a s : Decision (allocates a s) :=
  match a with
  | Command _ _ _ => decide (is_Some (_port s))
  | _ => False_dec
  end.

(** A name of the protocol: a word of letters and digits, not empty. *)
Definition letter_or_digit (c : ascii) : bool :=
  let n := N_of_ascii c in
  ((48 <=? n) && (n <=? 57) || (65 <=? n) && (n <=? 90)
   || (97 <=? n) && (n <=? 122))%N.

Fixpoint word (s : string) : bool :=
  match s with
  | EmptyString => true
  | String c s' => letter_or_digit c && word s'
  end.

Definition identifier (s : string) : bool :=
  negb (String.eqb s "") && word s.

(** The name of a domain of the protocol begins with a capital letter,
    which no name that [exports] has from elsewhere does. *)
Definition capitalised (s : string) : bool :=
  match s with
  | String c _ => let n := N_of_ascii c in ((65 <=? n) && (n <=? 90))%N
  | EmptyString => false
  end.

(** A name that makes an ordinary property: not an array index, which an
    object lists first, and not [__proto__]. *)
Definition ordinary (k : string) : Prop :=
  array_index k = None ∧ k ≠ "__proto__".

(** No separator in [s]. *)
Fixpoint dotless (s : string) : bool :=
  match s with
  | EmptyString => true
  | String c s' => negb (Ascii.eqb c ".") && dotless s'
  end.

(** The successive values of a counter that starts at [c]. *)
Fixpoint counters (n : nat) (c : Z) : list Z :=
  match n with
  | O => []
  | S n' => c :: counters n' (js_succ c)
  end.

(** ** Further observations of a trace *)

(** The parameter object of a command whose parameters have different
    names: the names in the order of the signature, each with the argument
    at its position. *)
Definition named_arguments (signature : list ParameterDescriptor)
    (args : list value) : object :=
  imap (λ i d, (name d, arg_at args i)) signature.

(** The names of the ports opened with [chrome.runtime.connect]. *)
Definition opened_port (e : effect) : option Z :=
  match e with
  | RuntimeConnect p => Some (port_index p)
  | _ => None
  end.

Definition opened_ports (t : list effect) : list Z := omap opened_port t.

(** The ports closed with [port.disconnect()]. *)
Definition closed_port (e : effect) : option Z :=
  match e with
  | PortDisconnect p => Some (port_index p)
  | _ => None
  end.

Definition closed_ports (t : list effect) : list Z := omap closed_port t.

(** The port in use along a trace: the one opened last, until the module
    disconnects it.  An envelope has to go to the port in use; [port_step]
    has no result when one goes elsewhere. *)
Definition port_step (current : option Z) (e : effect) : option (option Z) :=
  match e with
  | RuntimeConnect p => Some (Some (port_index p))
  | PortDisconnect p =>
      Some (if decide (current = Some (port_index p)) then None else current)
  | PostMessage p _ _ =>
      if decide (current = Some (port_index p)) then Some current else None
  | _ => Some current
  end.

Fixpoint port_in_use (current : option Z) (t : list effect)
    : option (option Z) :=
  match t with
  | [] => Some current
  | e :: t' => port_step current e ≫= λ next, port_in_use next t'
  end.

(** The port of the state is the port in use, when there is one. *)
Definition port_known (s : State) (current : option Z) : Prop :=
  ∀ p, _port s = Some p → current = Some (port_index p).


(** The events published with [triggerHandler]. *)
Definition published_event (e : effect) : option (target * value * value) :=
  match e with
  | Trigger on type data => Some (on, type, data)
  | _ => None
  end.

Definition published (t : list effect) : list (target * value * value) :=
  omap published_event t.

(** The Deferreds resolved ([true]) and rejected ([false]), with the value
    given. *)
Definition settlement (e : effect) : option (nat * bool * value) :=
  match e with
  | Resolve d v => Some (d, true, v)
  | Reject d v => Some (d, false, v)
  | _ => None
  end.

Definition settlements (t : list effect) : list (nat * bool * value) :=
  omap settlement t.

(** The declaration of a name that counts when the description has
    several: the last one. *)
Definition declared_domain (domains : list Domain) (k : string)
    : option Domain :=
  last (filter (λ d, domain d = k) domains).

(** The same with its place in the description, counted from 0. *)
Definition declared_at (domains : list Domain) (k : string)
    : option (nat * Domain) :=
  last (filter (λ p, domain p.2 = k) (imap pair domains)).

Definition declared_command (d : Domain) (k : string)
    : option CommandDescriptor :=
  last (filter (λ c, command_name c = k) (commands d)).


(** The Deferreds settled, in the order of their settlement. *)
Definition settled (t : list effect) : list nat :=
  (λ x, x.1.1) <$> settlements t.

(** A command as a client can call it: the closures that [_send] creates
    stay inside the module, so that the last argument of a command is never
    one of them. *)
Definition callable (a : action) : Prop :=
  match a with
  | Command _ _ varargs => ∀ d, last varargs ≠ Some (VFun (ResolveFn d))
  | _ => True
  end.

(** The Deferreds the module can still settle: the one of the attempt to
    connect and those that the functions of the table resolve. *)
Definition live (s : State) (d : nat) : Prop :=
  _connectDeferred s = Some d
  ∨ ∃ i, _messageCallbacks s !! i = Some (ResolveFn d).

(** The bookkeeping of the Deferreds in a state reached after the
    Deferreds [past] have been settled: the live ones have been created and
    are not settled, none was settled twice, and no two places of the
    state hold the same one. *)
Definition deferreds_sound (s : State) (past : list nat) : Prop :=
  (∀ d, live s d → (d < deferreds s)%nat)
  ∧ (∀ d, d ∈ past → (d < deferreds s)%nat ∧ ¬ live s d)
  ∧ NoDup past
  ∧ (∀ i j d, _messageCallbacks s !! i = Some (ResolveFn d) →
              _messageCallbacks s !! j = Some (ResolveFn d) → i = j)
  ∧ (∀ d i, _connectDeferred s = Some d →
            _messageCallbacks s !! i ≠ Some (ResolveFn d)).

(** What the attempt to connect contributes when it is settled. *)
Definition attempt_settled (s : State) : list nat :=
  match _connectDeferred s with
  | Some d => [d]
  | None => []
  end.

(** The ways in which an action changes this bookkeeping. *)
Inductive deferred_step (s s' : State) (now : list nat) : Prop :=
| step_keep :
    _messageCallbacks s' ⊆ _messageCallbacks s →
    _connectDeferred s' = _connectDeferred s →
    deferreds s' = deferreds s →
    now = [] →
    deferred_step s s' now
| step_store_callback (i : Z) (k : nat) :
    _messageCallbacks s' = <[i := UserFn k]> (_messageCallbacks s) →
    _connectDeferred s' = _connectDeferred s →
    deferreds s' = deferreds s →
    now = [] →
    deferred_step s s' now
| step_store_promise (i : Z) :
    _messageCallbacks s'
    = <[i := ResolveFn (deferreds s)]> (_messageCallbacks s) →
    _connectDeferred s' = _connectDeferred s →
    deferreds s' = S (deferreds s) →
    now = [] →
    deferred_step s s' now
| step_deliver (i : Z) (d : nat) :
    _messageCallbacks s !! i = Some (ResolveFn d) →
    _messageCallbacks s' = delete i (_messageCallbacks s) →
    _connectDeferred s' = _connectDeferred s →
    deferreds s' = deferreds s →
    now = [d] →
    deferred_step s s' now
| step_attempt :
    _messageCallbacks s' = _messageCallbacks s →
    _connectDeferred s' = Some (deferreds s) →
    deferreds s' = S (deferreds s) →
    now = attempt_settled s →
    deferred_step s s' now
| step_answer :
    _messageCallbacks s' = _messageCallbacks s →
    _connectDeferred s' = None →
    deferreds s' = deferreds s →
    now = attempt_settled s →
    deferred_step s s' now.

(** The actions that open a port: an answer of the extension without an
    error. *)
Definition opens (a : action) : Prop :=
  match a with
  | AttachDebuggerReply error => truthy error = false
  | _ => False
  end.

#[global] Instance opens_dec a : Decision (opens a) :=
  match a with
  | AttachDebuggerReply error => decide (truthy error = false)
  | _ => False_dec
  end.

(** * The file system of the Chrome shell

    A shallow embedding of [src/chromeShell/fs.js], the implementation of
    [shell.fs] on the file system that the browser gives to a page.

    Every function of the module asks the browser for something and goes
    on in one of the two functions it hands over with the request.  A
    function of the module becomes a tree of type [proc], whose nodes are
    the calls made to the outside (console, [alert], the caller's
    callback) and the requests, each with its two continuations; [exec]
    runs a tree against a browser that answers every request once, through
    one of the two.

    Conventions.  A path is a string and the callback a function, named by
    a number as in the inspector; a call of it is recorded and taken to
    return.  [onInitFs] has run to its end: the file system is open and
    the error codes of lines 310-320 are set.  [readFile] and [writeFile]
    wait for events of a [FileReader] and of a [FileWriter], which the
    browser fires by rules of its own; they are left out. *)
Module fs.

(** The error codes of the shell, lines 310-320. *)
Definition NO_ERROR : Z := 0.
Definition ERR_UNKNOWN : Z := 1.
Definition ERR_INVALID_PARAMS : Z := 2.
Definition ERR_NOT_FOUND : Z := 3.
Definition ERR_CANT_READ : Z := 4.
Definition ERR_UNSUPPORTED_ENCODING : Z := 5.
Definition ERR_CANT_WRITE : Z := 6.
Definition ERR_OUT_OF_SPACE : Z := 7.
Definition ERR_NOT_FILE : Z := 8.
Definition ERR_NOT_DIRECTORY : Z := 9.
Definition ERR_FILE_EXISTS : Z := 10.

(** The codes of [window.FileError]. *)
Inductive FileErrorCode :=
| NOT_FOUND_ERR
| SECURITY_ERR
| ABORT_ERR
| NOT_READABLE_ERR
| ENCODING_ERR
| NO_MODIFICATION_ALLOWED_ERR
| INVALID_STATE_ERR
| SYNTAX_ERR
| INVALID_MODIFICATION_ERR
| QUOTA_EXCEEDED_ERR
| TYPE_MISMATCH_ERR
| PATH_EXISTS_ERR.

Record FileError := mkFileError { code : FileErrorCode }.

(** An entry of the file system, as the browser hands it over. *)
Record Entry := mkEntry { id : nat; name : string }.

(** The directory a request is made on: [fs.root] or an entry. *)
Inductive directory :=
| root
| opened (dirEntry : Entry).

(** The requests made to the browser; [create] is the option of that name,
    [None] when the options are [{}]. *)
Inductive request :=
| getFile (path : string) (create : option bool)
| getDirectory (path : string) (create : option bool)
| readEntries (dir : directory)
| moveTo (e : Entry) (parent : directory) (newName : string)
| remove (e : Entry)
| removeRecursively (e : Entry).

(** What the success callback of a request is called with. *)
Definition reply (r : request) : Type :=
  match r with
  | getFile _ _ | getDirectory _ _ => Entry
  | readEntries _ => list Entry
  | moveTo _ _ _ | remove _ | removeRecursively _ => unit
  end.

(** The arguments given to the caller's callback: a number, the error
    object of the browser, [null], an array of names, an object with the
    methods [isFile] and [isDirectory] (given by what they return) and the
    property [mtime], the object [{}], a string. *)
Inductive arg :=
| Code (n : Z)
| Failure (e : FileError)
| Null
| Names (names : list string)
| Stats (isFile isDirectory : bool) (mtime : Z)
| EmptyObject
| Str (s : string).

Inductive event :=
| console_log (message : string)
| console_error (message : string)
| alert (message : string)
| Asked (r : request)
| Called (callback : nat) (args : list arg).

Inductive proc :=
| Stop
| Do (e : event) (k : proc)
| Ask (r : request) (ok : reply r → proc) (err : FileError → proc).

(** The browser: its answer to the [n]-th request of a run. *)
Definition browser := nat → ∀ r : request, reply r + FileError.

Fixpoint exec (b : browser) (n : nat) (p : proc) : list event :=
  match p with
  | Stop => []
  | Do e k => e :: exec b n k
  | Ask r ok err =>
      Asked r :: match b n r with
                 | inl a => exec b (S n) (ok a)
                 | inr e => exec b (S n) (err e)
                 end
  end.

(** ** Strings *)

(** [s.indexOf(c)] and [s.lastIndexOf(c)] for a string [c] of one
    character: -1 when [c] does not occur. *)
Fixpoint indexOf (c : ascii) (s : string) : Z :=
  match s with
  | EmptyString => -1
  | String a s' =>
      if Ascii.eqb a c then 0
      else match indexOf c s' with
           | -1 => -1
           | i => i + 1
           end
  end.

Fixpoint lastIndexOf (c : ascii) (s : string) : Z :=
  match s with
  | EmptyString => -1
  | String a s' =>
      match lastIndexOf c s' with
      | -1 => if Ascii.eqb a c then 0 else -1
      | i => i + 1
      end
  end.

(** [s.substr(start, length)]; [length] is [None] when left out. *)
Definition substr (s : string) (start : Z) (length : option Z) : string :=
  let size := Z.of_nat (String.length s) in
  let from := if start <? 0 then Z.max (size + start) 0 else start in
  let count :=
    match length with
    | Some l => Z.min (Z.max l 0) (size - from)
    | None => size - from
    end in
  if count <=? 0 then "" else substring (Z.to_nat from) (Z.to_nat count) s.

(** ** The functions of the module *)

(** [mapError(error)], lines 37-39. *)
Definition mapError (error : FileError) : Z := NO_ERROR.

(** [callback(a, b, ...)], after which the function that calls returns. *)
Definition call (callback : nat) (args : list arg) : proc :=
  Do (Called callback args) Stop.

(** [createErrorHandler(callback)], lines 44-75; [callback] is [None] when
    it is not a function. *)
Definition createErrorHandler (callback : option nat) (error : FileError)
    : proc :=
  let msg :=
    match code error with
    | QUOTA_EXCEEDED_ERR => "QUOTA_EXCEEDED_ERR"
    | NOT_FOUND_ERR => "NOT_FOUND_ERR"
    | SECURITY_ERR => "SECURITY_ERR"
    | INVALID_MODIFICATION_ERR => "INVALID_MODIFICATION_ERR"
    | INVALID_STATE_ERR => "INVALID_STATE_ERR"
    | _ => "Unknown Error"
    end in
  Do (console_error ("Error: " +:+ msg))
    match callback with
    | Some f => call f [Failure error; Null]
    | None => Stop
    end.

(** [readdir(path, callback)], lines 78-107. *)
Definition readdir (path : string) (callback : nat) : proc :=
  Do (console_log ("READ DIR: " +:+ path))
    (let errorHandler := createErrorHandler (Some callback) in
     if String.eqb path "/" then
       Ask (readEntries root)
         (λ results, call callback [Code NO_ERROR; Names (name <$> results)])
         errorHandler
     else
       Ask (getDirectory path None)
         (λ dirEntry,
            Ask (readEntries (opened dirEntry))
              (λ entries,
                 call callback [Code NO_ERROR; Names (name <$> entries)])
              errorHandler)
         errorHandler).

(** [makedir(path, mode, callback)], lines 109-117. *)
Definition makedir (path : string) (mode : value) (callback : nat) : proc :=
  Do (console_log ("makedir " +:+ path))
    (let errorHandler := createErrorHandler (Some callback) in
     Ask (getDirectory path (Some true))
       (λ _, call callback [Code NO_ERROR])
       errorHandler).

(** [stat(path, callback)], lines 123-176. *)
Definition stat (path : string) (callback : nat) : proc :=
  Do (console_log ("STAT:" +:+ path))
    (if String.eqb path "/" then
       call callback [Code NO_ERROR; Stats false true 0]
     else if negb (indexOf "." path =? -1) then
       Ask (getFile path (Some false))
         (λ _, call callback [Code NO_ERROR; Stats true false 0])
         (λ _, call callback [Code ERR_NOT_FOUND; EmptyObject])
     else
       Ask (getDirectory path (Some false))
         (λ _, call callback [Code NO_ERROR; Stats false true 0])
         (λ _, call callback [Code ERR_NOT_FOUND; EmptyObject])).

(** The two parts of [newPath] that [rename] computes, lines 234-235. *)
Definition newDirName (newPath : string) : string :=
  substr newPath 0 (Some (lastIndexOf "/" newPath + 1)).

Definition newFileName (newPath : string) : string :=
  substr newPath (lastIndexOf "/" newPath + 1) None.

(** [rename(oldPath, newPath, callback)], lines 229-253.  The error
    callback of every request is [callback] itself. *)
Definition rename (oldPath newPath : string) (callback : nat) : proc :=
  Do (console_log ("RENAME: " +:+ oldPath))
    (Ask (getFile oldPath (Some false))
       (λ fileEntry,
          if String.eqb (newDirName newPath) "/" then
            Ask (moveTo fileEntry root (newFileName newPath))
              (λ _, call callback [Code NO_ERROR])
              (λ error, call callback [Failure error])
          else
            Ask (getDirectory (newDirName newPath) (Some true))
              (λ dirEntry,
                 Ask (moveTo fileEntry (opened dirEntry)
                        (newFileName newPath))
                   (λ _, call callback [Code NO_ERROR])
                   (λ error, call callback [Failure error]))
              (λ error, call callback [Failure error]))
       (λ error, call callback [Failure error])).

(** [unlink(path, callback)], lines 255-280, exported as [moveToTrash]. *)
Definition unlink (path : string) (callback : nat) : proc :=
  Do (console_log ("DELETE: " +:+ path))
    (let errorHandler := createErrorHandler (Some callback) in
     if negb (indexOf "." path =? -1) then
       Ask (getFile path (Some false))
         (λ fileEntry,
            Ask (remove fileEntry)
              (λ _, call callback [Code NO_ERROR])
              errorHandler)
         errorHandler
     else
       Ask (getDirectory path None)
         (λ dirEntry,
            Ask (removeRecursively dirEntry)
              (λ _, call callback [Code NO_ERROR])
              errorHandler)
         errorHandler).

(** [showOpenDialog(...)], lines 283-290. *)
Definition showOpenDialog
    (allowMultipleSelection chooseDirectory title initialPath fileTypes
       : value)
    (callback : nat) : proc :=
  Do (alert "File/directory chooser not implemented yet")
    (if truthy chooseDirectory then call callback [Code 0; Str "/"]
     else call callback [Code 1]).

(** ** Observations of a run *)

Definition call_of (e : event) : option (nat * list arg) :=
  match e with
  | Called callback args => Some (callback, args)
  | _ => None
  end.

(** The calls of callbacks, in order. *)
Definition calls (t : list event) : list (nat * list arg) := omap call_of t.

Definition request_of (e : event) : option request :=
  match e with
  | Asked r => Some r
  | _ => None
  end.

(** The requests made to the browser, in order. *)
Definition requests (t : list event) : list request := omap request_of t.

Definition error_of (e : event) : option string :=
  match e with
  | console_error message => Some message
  | _ => None
  end.

(** The lines written with [console.error]. *)
Definition errors (t : list event) : list string := omap error_of t.

(** [c] occurs in [s]. *)
Definition occurs (c : ascii) (s : string) : bool :=
  negb (indexOf c s =? -1).

(** The error of the first request among [rs] that the browser refuses,
    when the first of [rs] is the [n]-th request of the run. *)
Fixpoint first_failure (b : browser) (n : nat) (rs : list request)
    : option FileError :=
  match rs with
  | [] => None
  | r :: rs' =>
      match b n r with
      | inr error => Some error
      | inl _ => first_failure b (S n) rs'
      end
  end.

(** The line on the console for an error: its name when it is one of the
    five that the handler knows. *)
Definition error_line (error : FileError) : string :=
  match code error with
  | QUOTA_EXCEEDED_ERR => "Error: QUOTA_EXCEEDED_ERR"
  | NOT_FOUND_ERR => "Error: NOT_FOUND_ERR"
  | SECURITY_ERR => "Error: SECURITY_ERR"
  | INVALID_MODIFICATION_ERR => "Error: INVALID_MODIFICATION_ERR"
  | INVALID_STATE_ERR => "Error: INVALID_STATE_ERR"
  | _ => "Error: Unknown Error"
  end.

(** What a function that uses the handler of [createErrorHandler] reports
    when its requests were [rs]: [success] when the browser granted them
    all, and otherwise the error of the request it refused, with [null],
    after a line on the console. *)
Definition report (b : browser) (n : nat) (rs : list request)
    (callback : nat) (success : list arg) (t : list event) : Prop :=
  match first_failure b n rs with
  | None => calls t = [(callback, success)] ∧ errors t = []
  | Some error =>
      calls t = [(callback, [Failure error; Null])]
      ∧ errors t = [error_line error]
  end.

(** A browser for the examples: [/index.html] is a file, the root holds it
    and the directory [css], nothing else exists and nothing can be
    created. *)
Definition example_browser : browser :=
  λ _ r,
    match r return reply r + FileError with
    | getFile path _ =>
        if String.eqb path "/index.html" then inl (mkEntry 1 "index.html")
        else inr (mkFileError NOT_FOUND_ERR)
    | getDirectory path _ =>
        if String.eqb path "/css/" then inl (mkEntry 2 "css")
        else inr (mkFileError NOT_FOUND_ERR)
    | readEntries root =>
        inl [mkEntry 1 "index.html"; mkEntry 2 "css"]
    | readEntries (opened _) => inl []
    | moveTo _ _ _ => inl tt
    | remove _ => inl tt
    | removeRecursively _ => inr (mkFileError SECURITY_ERR)
    end.

End fs.

(** * Properties *)

(** ** The dispatcher, step by step *)

Ltac run_monad :=
  unfold mbind, M_bind, mret, M_ret, mthrow, M_throw, read, write, emit;
  cbn [outcome final trace msg_id msg_error msg_result msg_method msg_params].

(** Line 132 passes the descriptor where [_verifySignature] expects the
    value: the value it tests is never [undefined], and nothing is checked. *)
Lemma _verifySignature_descriptor (a : value) (d : ParameterDescriptor)
    (s : State) :
  _verifySignature a (descriptor_object d) s = mkRun (Normal true) s [].
Proof. reflexivity. Qed.

Lemma build_params_pure args rest : ∀ i params s,
  build_params args i rest params s
  = mkRun (Normal (params_from args i rest params)) s [].
Proof.
  induction rest as [|d rest IH]; intros i params s; [reflexivity|].
  cbn [build_params]. unfold mbind at 1, M_bind at 1.
  rewrite _verifySignature_descriptor. cbn [outcome final trace].
  rewrite IH. reflexivity.
Qed.

(** A send with a callback. *)
Lemma _send_callback method signature varargs s p args f :
  _port s = Some p →
  split_callback varargs = (args, Some f) →
  _send method signature varargs s
  = let id := _messageId s in
    let params := params_from args 0 signature [] in
    mkRun (Normal None) (sent f s)
      [send_check; send_log method params id;
       PostMessage p (send_message method params id) f].
Proof.
  intros Hp Hsplit. unfold _send. run_monad. rewrite Hp, Hsplit.
  run_monad. rewrite build_params_pure. reflexivity.
Qed.

(** A send without one: the callback resolves a new Deferred. *)
Lemma _send_promise method signature varargs s p args :
  _port s = Some p →
  split_callback varargs = (args, None) →
  _send method signature varargs s
  = let id := _messageId s in
    let d := deferreds s in
    let params := params_from args 0 signature [] in
    mkRun (Normal (Some d)) (sent (ResolveFn d) (set_deferreds (S d) s))
      [send_check; NewDeferred d; send_log method params id;
       PostMessage p (send_message method params id) (ResolveFn d)].
Proof.
  intros Hp Hsplit. unfold _send. run_monad. rewrite Hp, Hsplit.
  unfold new_Deferred. run_monad. rewrite build_params_pure. reflexivity.
Qed.

(** Both at once: what a send does to the counter, the table and the port. *)
Lemma _send_connected method signature varargs s p :
  _port s = Some p →
  ∃ callback promise,
    let id := _messageId s in
    let params := params_from (split_callback varargs).1 0 signature [] in
    outcome (_send method signature varargs s) = Normal promise
    ∧ _messageId (final (_send method signature varargs s)) = js_succ id
    ∧ _messageCallbacks (final (_send method signature varargs s))
      = <[id := callback]> (_messageCallbacks s)
    ∧ _port (final (_send method signature varargs s)) = _port s
    ∧ envelopes (trace (_send method signature varargs s))
      = [send_message method params id]
    ∧ failed_assertions (trace (_send method signature varargs s)) = []
    ∧ invocations (trace (_send method signature varargs s)) = [].
Proof.
  intros Hp. destruct (split_callback varargs) as [args [f|]] eqn:Hsplit.
  - exists f, None.
    rewrite (_send_callback _ _ _ _ _ _ _ Hp Hsplit). repeat split.
  - exists (ResolveFn (deferreds s)), (Some (deferreds s)).
    rewrite (_send_promise _ _ _ _ _ _ Hp Hsplit). repeat split.
Qed.

Lemma _send_disconnected method signature varargs s :
  _port s = None →
  _send method signature varargs s = mkRun (Normal None) s [].
Proof. intros Hp. unfold _send. run_monad. rewrite Hp. reflexivity. Qed.

(** ** The router, branch by branch *)

Lemma _onMessage_error response s :
  truthy (msg_error response) = true →
  _onMessage response s
  = mkRun (Normal response) s
      [message_event response;
       Log [PStr "  !!! Error: "; PJson (msg_error response)];
       Trigger TExports (VStr "error") (VArr [msg_error response])].
Proof.
  intros He. unfold _onMessage, triggerHandler, rejects, _trace. run_monad.
  rewrite He. reflexivity.
Qed.

(** The other branches are those of a message without an error. *)
Section NoError.
Context (response : Message) (s : State).
Hypothesis He : truthy (msg_error response) = false.

Lemma _onMessage_pending result callback :
  msg_result response = Some result →
  callback_for (msg_id response) (_messageCallbacks s) = Some callback →
  _onMessage response s
  = mkRun (Normal (normalized response result))
      (set_messageCallbacks
         (delete_callback (msg_id response) (_messageCallbacks s)) s)
      (message_event response :: result_log response result
         :: invoke_trace callback (VObj (normalize result))).
Proof.
  intros Hr Hc. unfold _onMessage, triggerHandler, rejects, _trace. run_monad.
  rewrite He, Hr. run_monad. rewrite Hc.
  destruct callback; reflexivity.
Qed.

Lemma _onMessage_unknown result :
  msg_result response = Some result →
  callback_for (msg_id response) (_messageCallbacks s) = None →
  _onMessage response s
  = mkRun (Normal (normalized response result)) s
      [message_event response; result_log response result].
Proof.
  intros Hr Hc. unfold _onMessage, triggerHandler, rejects, _trace. run_monad.
  rewrite He, Hr. run_monad. rewrite Hc. reflexivity.
Qed.

Lemma _onMessage_event method :
  msg_result response = None →
  msg_method response = Some method →
  let on :=
    TObject (object_id <$> members (exports s) !! (split_dot method).1) in
  let type := string_at (split_dot method).2 0 in
  _onMessage response s
  = mkRun (if rejects on type
           then Throw (TypeError "Cannot read property type of undefined")
           else Normal response)
      s
      [message_event response;
       Log [PStr "  Event: "; PVal (VStr method)];
       Trigger on type (msg_params response)].
Proof.
  intros Hr Hm. unfold _onMessage, triggerHandler, _trace. run_monad.
  change (rejects TExports (VStr "message")) with false. run_monad.
  rewrite He, Hr, Hm. destruct (split_dot method) as [d others].
  cbn [fst snd]. run_monad.
  by destruct (rejects _ _).
Qed.

(** An event without a method: [response.method.split] throws. *)
Lemma _onMessage_no_method :
  msg_result response = None →
  msg_method response = None →
  _onMessage response s
  = mkRun (Throw (TypeError "Cannot read property split")) s
      [message_event response; Log [PStr "  Event: "; PVal VUndefined]].
Proof.
  intros Hr Hm. unfold _onMessage, triggerHandler, rejects, _trace. run_monad.
  rewrite He, Hr, Hm. reflexivity.
Qed.
End NoError.

(** ** What an action does to the counter and to the table *)

Lemma perform_allocates a s :
  allocates a s →
  ∃ callback,
    _messageId (final (perform a s)) = js_succ (_messageId s)
    ∧ _messageCallbacks (final (perform a s))
      = <[_messageId s := callback]> (_messageCallbacks s)
    ∧ sent_ids (trace (perform a s)) = [_messageId s]
    ∧ invocations (trace (perform a s)) = [].
Proof.
  destruct a as [method signature varargs| | | | | | |]; simpl; try done.
  intros [p Hp].
  destruct (_send_connected method signature varargs s p Hp)
    as (callback & promise & Hout & Hid & Htable & _ & Henv & _ & Hinv).
  exists callback. unfold mbind, M_bind.
  destruct (_send method signature varargs s) as [o s' t].
  cbn [outcome final trace] in *. subst o. cbn [mret M_ret final trace].
  rewrite !app_nil_r. unfold sent_ids. rewrite Henv, Hinv. done.
Qed.

Lemma _onMessage_frame response s :
  _messageId (final (_onMessage response s)) = _messageId s
  ∧ _messageCallbacks (final (_onMessage response s)) ⊆ _messageCallbacks s
  ∧ _port (final (_onMessage response s)) = _port s
  ∧ envelopes (trace (_onMessage response s)) = [].
Proof.
  destruct (truthy (msg_error response)) eqn:He.
  { rewrite _onMessage_error by done. done. }
  destruct (msg_result response) as [result|] eqn:Hr.
  - destruct (callback_for (msg_id response) (_messageCallbacks s))
      as [callback|] eqn:Hc.
    + rewrite (_onMessage_pending _ _ He _ _ Hr Hc). cbn.
      repeat split; [|by destruct callback].
      destruct (msg_id response); [apply delete_subseteq|done].
    + rewrite (_onMessage_unknown _ _ He _ Hr Hc). done.
  - destruct (msg_method response) as [method|] eqn:Hm.
    + rewrite (_onMessage_event _ _ He _ Hr Hm). done.
    + rewrite (_onMessage_no_method _ _ He Hr Hm). done.
Qed.

Lemma perform_quiet a s :
  ¬ allocates a s →
  _messageId (final (perform a s)) = _messageId s
  ∧ _messageCallbacks (final (perform a s)) ⊆ _messageCallbacks s
  ∧ sent_ids (trace (perform a s)) = [].
Proof.
  destruct a as [method signature varargs|response| | | | |error|c ds];
    simpl; intros Hquiet.
  - destruct (_port s) as [p|] eqn:Hp; [destruct Hquiet; eauto|].
    unfold mbind, M_bind. rewrite _send_disconnected by done. done.
  - destruct (_onMessage_frame response s) as (Hid & Htable & _ & Henv).
    unfold mbind, M_bind.
    destruct (_onMessage response s) as [[m|e] s' t];
      cbn [outcome final trace mret M_ret] in *;
      rewrite ?app_nil_r; unfold sent_ids; rewrite Henv; done.
  - done.
  - unfold disconnect. run_monad. destruct (_port s); simpl; done.
  - unfold connect, disconnect. run_monad. destruct (_port s); simpl; done.
  - unfold connectToURL, connect, disconnect, new_Deferred. run_monad.
    destruct (_connectDeferred s); simpl; destruct (_port s); simpl; done.
  - unfold attachDebugger_callback, _onError, _onConnect, triggerHandler,
      rejects, _trace.
    destruct (truthy error); run_monad; simpl;
      destruct (_connectDeferred s); simpl; done.
  - done.
Qed.

(** ** Runs *)

Lemma run_cons a actions s :
  run (a :: actions) s
  = ((run actions (final (perform a s))).1,
     (trace (perform a s) ++ (run actions (final (perform a s))).2)%list).
Proof. cbn [run]. destruct (run actions (final (perform a s))). done. Qed.

Lemma sent_ids_app t1 t2 :
  sent_ids (t1 ++ t2) = (sent_ids t1 ++ sent_ids t2)%list.
Proof. unfold sent_ids, envelopes. by rewrite !omap_app. Qed.

Lemma seqZ_increasing n : ∀ m, StronglySorted Z.lt (seqZ m (Z.of_nat n)).
Proof.
  induction n as [|n IH]; intros m.
  - rewrite seqZ_nil by lia. constructor.
  - rewrite seqZ_cons by lia.
    replace (Z.pred (Z.of_nat (S n))) with (Z.of_nat n) by lia.
    constructor; [apply IH|].
    apply Forall_seqZ. lia.
Qed.

(** The ids a run assigns count up from the counter one by one, for as
    long as the counter counts exactly. *)
Lemma run_ids actions : ∀ s,
  _messageId s + Z.of_nat (length (sent_ids (run actions s).2))
    ≤ MAX_EXACT + 1 →
  sent_ids (run actions s).2
  = seqZ (_messageId s) (Z.of_nat (length (sent_ids (run actions s).2))).
Proof.
  induction actions as [|a actions IH]; intros s; [done|].
  rewrite run_cons. cbn [snd]. rewrite sent_ids_app, length_app.
  destruct (decide (allocates a s)) as [Ha|Ha].
  - destruct (perform_allocates a s Ha) as (cb & Hid & _ & Hids & _).
    rewrite Hids. cbn [length app]. intros Hbound.
    rewrite seqZ_cons by lia. f_equal.
    set (rest := sent_ids (run actions (final (perform a s))).2) in *.
    replace (Z.pred (Z.of_nat (1 + length rest))) with (Z.of_nat (length rest))
      by lia.
    destruct (decide (length rest = 0%nat)) as [Hnil|Hsome].
    + rewrite Hnil. destruct rest; [|done]. by rewrite seqZ_nil.
    + assert (_messageId s < MAX_EXACT) as Hexact by lia.
      unfold rest. rewrite IH at 1; fold rest; rewrite Hid; unfold js_succ;
        (destruct (Z.ltb_spec (_messageId s) MAX_EXACT); [|lia]).
      * done.
      * lia.
  - destruct (perform_quiet a s Ha) as (Hid & _ & Hids).
    rewrite Hids. cbn [length app Nat.add]. intros Hbound.
    rewrite IH at 1; rewrite Hid; [done|lia].
Qed.

(** No action resets the counter, a disconnection and a reconnection
    included. *)
Lemma counter_never_reset a s :
  _messageId s ≤ _messageId (final (perform a s)).
Proof.
  destruct (decide (allocates a s)) as [Ha|Ha].
  - destruct (perform_allocates a s Ha) as (cb & -> & _).
    unfold js_succ. destruct (Z.ltb_spec (_messageId s) MAX_EXACT); lia.
  - destruct (perform_quiet a s Ha) as (-> & _). lia.
Qed.

(** C1, as amended.  Whatever a client and Chrome do to the module from the
    moment it is loaded (commands, messages, disconnections and
    reconnections), the ids given to the commands that reach the port are
    1, 2, 3, ... in this order, hence strictly increasing and pairwise
    distinct, as long as at most 2^53 ids are assigned. *)
Theorem ids_count_up (actions : list action) :
  let ids := sent_ids (run actions initial).2 in
  Z.of_nat (length ids) ≤ MAX_EXACT →
  ids = seqZ 1 (Z.of_nat (length ids))
  ∧ StronglySorted Z.lt ids
  ∧ NoDup ids.
Proof.
  intros ids Hbound.
  assert (ids = seqZ 1 (Z.of_nat (length ids))) as Hids.
  { apply (run_ids actions initial). cbn [_messageId initial]. fold ids. lia. }
  split; [done|]. rewrite Hids. split.
  - apply seqZ_increasing.
  - apply NoDup_seqZ.
Qed.

Lemma ids_count_up_witness :
  Z.of_nat (length (sent_ids (run reconnecting_session initial).2))
    ≤ MAX_EXACT
  ∧ sent_ids (run reconnecting_session initial).2 = [1; 2; 3].
Proof.
  split.
  - vm_compute. discriminate.
  - apply (ids_count_up reconnecting_session). vm_compute. discriminate.
Defined.

(** *** When the counter stops counting *)

Lemma perform_command_port method signature varargs s :
  _port (final (perform (Command method signature varargs) s)) = _port s.
Proof.
  cbn [perform]. unfold mbind, M_bind.
  destruct (_port s) as [p|] eqn:Hp.
  - destruct (_send_connected method signature varargs s p Hp)
      as (callback & promise & Hout & _ & _ & Hport & _).
    destruct (_send method signature varargs s) as [o s' t].
    cbn [outcome final] in *. subst o. cbn [mret M_ret final]. congruence.
  - rewrite _send_disconnected by done. done.
Qed.

Lemma run_replicate_ids method signature varargs n : ∀ s,
  is_Some (_port s) →
  sent_ids (run (replicate n (Command method signature varargs)) s).2
  = counters n (_messageId s).
Proof.
  induction n as [|n IH]; intros s Hp; [done|].
  cbn [replicate counters]. rewrite run_cons. cbn [snd].
  rewrite sent_ids_app.
  destruct (perform_allocates (Command method signature varargs) s Hp)
    as (cb & Hid & _ & Hids & _).
  rewrite Hids, IH, Hid; [done|].
  by rewrite perform_command_port.
Qed.

Lemma MAX_EXACT_large : 1 < MAX_EXACT.
Proof. reflexivity. Qed.

Lemma counters_lookup n : ∀ c i,
  (i < n)%nat → c ≤ MAX_EXACT →
  counters n c !! i = Some (Z.min (c + Z.of_nat i) MAX_EXACT).
Proof.
  induction n as [|n IH]; intros c i Hi Hc; [lia|].
  destruct i as [|i]; cbn [counters lookup list_lookup].
  - f_equal. lia.
  - rewrite IH by (unfold js_succ; destruct (Z.ltb_spec c MAX_EXACT); lia).
    f_equal. unfold js_succ. destruct (Z.ltb_spec c MAX_EXACT); lia.
Qed.

(** From the 2^53-th on, every id is 2^53. *)
Lemma counters_saturated n i :
  (i < n)%nat → MAX_EXACT - 1 ≤ Z.of_nat i →
  counters n 1 !! i = Some MAX_EXACT.
Proof.
  intros Hi Hlarge. pose proof MAX_EXACT_large.
  rewrite counters_lookup by lia. f_equal. lia.
Qed.

Lemma counters_repeat n :
  MAX_EXACT + 1 ≤ Z.of_nat n → ¬ NoDup (counters n 1).
Proof.
  intros Hn Hnodup. pose proof MAX_EXACT_large as Hlarge.
  destruct n as [|[|m]]; [lia|lia|].
  assert (m = S m) as Heq; [|lia].
  apply (NoDup_lookup _ _ _ MAX_EXACT Hnodup);
    apply counters_saturated; lia.
Qed.

Lemma run_app actions1 : ∀ actions2 s,
  run (actions1 ++ actions2) s
  = ((run actions2 (run actions1 s).1).1,
     ((run actions1 s).2 ++ (run actions2 (run actions1 s).1).2)%list).
Proof.
  induction actions1 as [|a actions1 IH]; intros actions2 s.
  - cbn. by destruct (run actions2 s).
  - cbn [app]. rewrite !run_cons, IH. cbn [fst snd]. by rewrite app_assoc.
Qed.

Lemma flood_ids n :
  sent_ids (run (flood n) initial).2 = counters n 1.
Proof.
  unfold flood. rewrite run_app. cbn [snd]. rewrite sent_ids_app.
  fold connected_first.
  rewrite run_replicate_ids by (by eexists).
  reflexivity.
Qed.

(** C1 as stated fails on the code: the counter is a Number, and once it
    has reached 2^53 it stays there, so that the last two of 2^53 + 1
    commands are sent with the same id. *)
Lemma ids_count_up_counterexample :
  ¬ NoDup (sent_ids (run (flood (Z.to_nat (MAX_EXACT + 1))) initial).2).
Proof.
  rewrite flood_ids. apply counters_repeat.
  rewrite Z2Nat.id; [apply Z.le_refl|discriminate].
Qed.

(** ** The table holds allocated ids only *)

Lemma table_below_initial : table_below initial.
Proof. apply map_Forall_empty. Qed.

Lemma perform_table_below a s :
  _messageId s < MAX_EXACT →
  table_below s → table_below (final (perform a s)).
Proof.
  unfold table_below. intros Hexact Hinv.
  destruct (decide (allocates a s)) as [Ha|Ha].
  - destruct (perform_allocates a s Ha) as (cb & Hid & Htable & _).
    rewrite Hid, Htable. unfold js_succ.
    destruct (Z.ltb_spec (_messageId s) MAX_EXACT); [|lia].
    apply map_Forall_insert_2; [lia|].
    eapply map_Forall_impl; [exact Hinv|]. intros id f Hlt. simpl in *. lia.
  - destruct (perform_quiet a s Ha) as (Hid & Htable & _).
    rewrite Hid. intros id f Hlookup.
    apply (Hinv id f). by eapply lookup_weaken.
Qed.

(** C9, as amended.  Every action performed while the counter is below
    2^53 (a command, a message, a connection, a disconnection, a closure of
    the port) keeps every id of the table below the counter. *)
Theorem table_below_kept (a : action) (s : State) :
  _messageId s < MAX_EXACT →
  table_below s →
  table_below (final (perform a s)).
Proof. apply perform_table_below. Qed.

Lemma table_below_kept_witness :
  _messageId connected_first < MAX_EXACT
  ∧ table_below connected_first
  ∧ table_below
      (final (perform (Command "Page.enable" [] [VFun (UserFn 0)])
                      connected_first)).
Proof.
  assert (_messageId connected_first < MAX_EXACT) as Hexact
    by (vm_compute; reflexivity).
  assert (table_below connected_first) as Hinv by apply map_Forall_empty.
  split; [exact Hexact|]. split; [exact Hinv|].
  apply (table_below_kept _ _ Hexact Hinv).
Defined.

(** The state after [n] commands of a connected client. *)
Lemma run_replicate_state method signature varargs n : ∀ s,
  is_Some (_port s) →
  _messageId s + Z.of_nat n ≤ MAX_EXACT →
  table_below s →
  let s' := (run (replicate n (Command method signature varargs)) s).1 in
  _messageId s' = _messageId s + Z.of_nat n
  ∧ table_below s'
  ∧ is_Some (_port s').
Proof.
  induction n as [|n IH]; intros s Hp Hbound Hinv.
  - cbn. split; [lia|done].
  - cbn [replicate]. rewrite run_cons. cbn [fst].
    set (s1 := final (perform (Command method signature varargs) s)).
    destruct (perform_allocates (Command method signature varargs) s Hp)
      as (cb & Hid & _).
    fold s1 in Hid.
    assert (_messageId s1 = _messageId s + 1) as Hid1.
    { rewrite Hid. unfold js_succ.
      destruct (Z.ltb_spec (_messageId s) MAX_EXACT); lia. }
    destruct (IH s1) as (Hid' & Hinv' & Hp').
    + unfold s1. by rewrite perform_command_port.
    + lia.
    + apply perform_table_below; [lia|done].
    + split; [lia|done].
Qed.

Lemma flood_state n :
  1 + Z.of_nat n ≤ MAX_EXACT →
  _messageId (run (flood n) initial).1 = 1 + Z.of_nat n
  ∧ table_below (run (flood n) initial).1
  ∧ is_Some (_port (run (flood n) initial).1).
Proof.
  intros Hbound. unfold flood. rewrite run_app. cbn [fst].
  fold connected_first.
  apply (run_replicate_state "Page.enable" [] [] n connected_first).
  - by eexists.
  - exact Hbound.
  - apply map_Forall_empty.
Qed.

Lemma flood_overflow n :
  1 + Z.of_nat n = MAX_EXACT →
  table_below (run (flood n) initial).1
  ∧ ¬ table_below
        (final (perform (Command "Page.enable" [] [])
                        (run (flood n) initial).1)).
Proof.
  intros Hn. pose proof MAX_EXACT_large as Hlarge.
  destruct (flood_state n) as (Hid & Hinv & Hp); [lia|].
  split; [exact Hinv|].
  destruct (perform_allocates (Command "Page.enable" [] []) _ Hp)
    as (cb & Hid' & Htable & _).
  unfold table_below. rewrite Hid', Htable. intros Hall.
  pose proof (map_Forall_insert_1_1 _ _ _ _ Hall) as Hlt.
  cbv beta in Hlt. unfold js_succ in Hlt.
  destruct (Z.ltb_spec (_messageId (run (flood n) initial).1) MAX_EXACT);
    lia.
Qed.

(** C9 as stated fails on the code: after 2^53 - 1 commands the counter is
    2^53; the next command is stored under the id 2^53 and leaves the
    counter where it is. *)
Lemma table_below_kept_counterexample :
  table_below (run (flood (Z.to_nat (MAX_EXACT - 1))) initial).1
  ∧ ¬ table_below
        (final (perform (Command "Page.enable" [] [])
                        (run (flood (Z.to_nat (MAX_EXACT - 1))) initial).1)).
Proof.
  apply flood_overflow.
  rewrite Z2Nat.id; [apply Zplus_minus|discriminate].
Qed.

(** ** Commands *)

(** C3.  A command called while no port is open does nothing at all: the
    call returns [undefined] without throwing, nothing reaches the outside
    (no envelope, no console output), and the state is the state before (no
    id allocated, table unchanged). *)
Theorem send_without_port method signature varargs (s : State) :
  _port s = None →
  _send method signature varargs s = mkRun (Normal None) s [].
Proof. apply _send_disconnected. Qed.

Lemma send_without_port_witness :
  _port initial = None
  ∧ scenario_A initial = mkRun (Normal None) initial [].
Proof.
  split; [reflexivity|].
  apply (send_without_port "Page.navigate"). reflexivity.
Defined.

(** What [init] binds for scenario A. *)
Lemma init_page_schema :
  members (init VUndefined page_schema ∅) !! "Page"
  = Some (mkDomainObject 0
            {["navigate" := mkBound "Page.navigate"
                                    [mkParameter "url" false]]}).
Proof. reflexivity. Qed.

Lemma call_bound exports domain command domain_object b varargs s :
  members exports !! domain = Some domain_object →
  bound domain_object !! command = Some b →
  call exports domain command varargs s
  = _send (bound_method b) (bound_signature b) varargs s.
Proof. intros Hd Hc. unfold call. by rewrite Hd, Hc. Qed.

(** C5, as amended.  The first command after initialisation, scenario A's
    [Page.navigate("http://example.com", cb)] on an open port, hands the
    port exactly the four-field object whose command-kind field is named
    [cmd] and holds ["sendCommand"], with the method, the parameter object
    and the id 1. *)
Theorem first_envelope (s : State) (p : Port) (cb : func) :
  _port s = Some p →
  _messageId s = 1 →
  envelopes (trace (call (init VUndefined page_schema ∅) "Page" "navigate"
                      [VStr "http://example.com"; VFun cb] s))
  = [VObj [("cmd", VStr "sendCommand");
           ("method", VStr "Page.navigate");
           ("params", VObj [("url", VStr "http://example.com")]);
           ("id", VNum 1)]].
Proof.
  intros Hp Hid.
  rewrite (call_bound _ _ _ _ _ _ _ init_page_schema
             (lookup_singleton_eq _ _)).
  cbn [bound_method bound_signature].
  assert (split_callback [VStr "http://example.com"; VFun cb]
          = ([VStr "http://example.com"], Some cb)) as Hsplit by reflexivity.
  rewrite (_send_callback _ _ _ _ _ _ _ Hp Hsplit).
  cbn. rewrite Hid. reflexivity.
Qed.

Lemma first_envelope_witness :
  _port connected_first = Some (mkPort 0)
  ∧ _messageId connected_first = 1
  ∧ envelopes (trace (scenario_A connected_first))
    = [VObj [("cmd", VStr "sendCommand");
             ("method", VStr "Page.navigate");
             ("params", VObj [("url", VStr "http://example.com")]);
             ("id", VNum 1)]].
Proof.
  split; [reflexivity|]. split; [reflexivity|].
  apply (first_envelope connected_first (mkPort 0)); reflexivity.
Defined.

(** C5 as stated fails on the code: the envelope has no field [verb]; it is
    not the object of the claim. *)
Lemma first_envelope_counterexample :
  envelopes (trace (scenario_A connected_first))
  ≠ [VObj [("verb", VStr "sendCommand");
           ("method", VStr "Page.navigate");
           ("params", VObj [("url", VStr "http://example.com")]);
           ("id", VNum 1)]].
Proof. vm_compute. discriminate. Qed.

(** C6, the code at a call without its required argument.  Scenario A's
    [Page.navigate(cb)] on an open port: [_verifySignature] is given the
    descriptor as its value, tests nothing and asserts nothing.  The console
    sees the two messages of every send and no "Missing argument"; the id 1
    is allocated and the envelope is posted with [url] bound to
    [undefined]. *)
Theorem missing_argument_unnoticed :
  trace (navigate_nowhere connected_first)
  = [Assert true
       [PStr "You must connect to the WebSocket before sending messages."];
     Log [PStr "Executing command "; PVal (VNum 1); PStr ": ";
          PVal (VStr "Page.navigate"); PStr " ";
          PJson (VObj [("url", VUndefined)])];
     PostMessage (mkPort 0)
       (VObj [("cmd", VStr "sendCommand");
              ("method", VStr "Page.navigate");
              ("params", VObj [("url", VUndefined)]);
              ("id", VNum 1)])
       (UserFn 0)]
  ∧ failed_assertions (trace (navigate_nowhere connected_first)) = []
  ∧ _messageCallbacks (final (navigate_nowhere connected_first)) !! 1
    = Some (UserFn 0)
  ∧ _messageId (final (navigate_nowhere connected_first)) = 2.
Proof. vm_compute. done. Qed.

(** No send ever fails an assertion, whatever its arguments. *)
Lemma _send_never_asserts method signature varargs s :
  failed_assertions (trace (_send method signature varargs s)) = [].
Proof.
  destruct (_port s) as [p|] eqn:Hp.
  - by destruct (_send_connected method signature varargs s p Hp)
      as (? & ? & _ & _ & _ & _ & _ & Hassert & _).
  - by rewrite _send_disconnected.
Qed.

(** The check as the comment of [_verifySignature] describes it, value in
    second place, does notice the omission. *)
Lemma _verifySignature_documented (d : ParameterDescriptor) (s : State) :
  _verifySignature (descriptor_object d) VUndefined s
  = mkRun (Normal true) s
      [Assert (optional d) [PStr "Missing argument: "; PVal (VStr (name d))]].
Proof. destruct d as [n []]; reflexivity. Qed.

(** ** The parameter object *)












(** ** Closure of the port *)

(** C8.  When the port closes by itself the module logs it, publishes
    [disconnect] and forgets the port; this is all it does.  The table is
    the table before, entry for entry, and no stored function is called,
    no Deferred resolved or rejected. *)
Theorem port_closed_keeps_table (s : State) :
  _onDisconnect s
  = mkRun (Normal tt) (set_port None s)
      [Log [PStr "** Port disconnected **"];
       Trigger TExports (VStr "disconnect") VUndefined]
  ∧ _port (final (_onDisconnect s)) = None
  ∧ _messageCallbacks (final (_onDisconnect s)) = _messageCallbacks s
  ∧ _messageId (final (_onDisconnect s)) = _messageId s
  ∧ invocations (trace (_onDisconnect s)) = [].
Proof. done. Qed.

(** Scenario E: the port closes between the first command and its
    response; the callback of the command is still in the table. *)
Lemma closed_before_response :
  _messageCallbacks (final (_onDisconnect (final (scenario_A connected_first))))
    !! 1
  = Some (UserFn 0).
Proof. reflexivity. Qed.

(** ** Responses *)

Lemma absent_is_falsy response :
  msg_error response = VUndefined → truthy (msg_error response) = false.
Proof. by intros ->. Qed.


Lemma invocations_invoke f v : invocations (invoke_trace f v) = [(f, v)].
Proof. by destruct f. Qed.

(** A result whose nested result is truthy is left as it is. *)
Lemma normalize_truthy result :
  truthy (get result "result") = true → normalize result = result.
Proof. unfold normalize. by intros ->. Qed.

(** C2.  A message without an error and with a result is a response, and
    [message.id] is looked up in the table.  When the table has a function
    under that id, exactly that function is called, once, with the result
    object of the message (as lines 192-197 have left it), and the table
    afterwards is the table without the entry of that id; when it has none,
    or when the message has no id, no function is called and the table
    stays as it is.  Either way the router returns normally. *)
Theorem response_resolves_call (response : Message) (result : object)
    (s : State) :
  msg_error response = VUndefined →
  msg_result response = Some result →
  let r := _onMessage response s in
  let payload :=
    VObj (if truthy (get result "result") then result
          else assign result "result" (VObj [("type", VStr "undefined")])) in
  let discarded :=
    invocations (trace r) = []
    ∧ _messageCallbacks (final r) = _messageCallbacks s in
  outcome r = Normal (normalized response result)
  ∧ match msg_id response with
    | Some id =>
        match _messageCallbacks s !! id with
        | Some continuation =>
            invocations (trace r) = [(continuation, payload)]
            ∧ _messageCallbacks (final r) = delete id (_messageCallbacks s)
        | None => discarded
        end
    | None => discarded
    end.
Proof.
  intros He%absent_is_falsy Hr r payload discarded.
  unfold discarded, payload, r. clear r payload discarded.
  destruct (callback_for (msg_id response) (_messageCallbacks s))
    as [continuation|] eqn:Hc.
  - rewrite (_onMessage_pending _ _ He _ _ Hr Hc). split; [done|].
    destruct (msg_id response) as [id|]; [|done].
    cbn in Hc. rewrite Hc. cbn [final trace delete_callback]. split; [|done].
    change (message_event response :: result_log response result
            :: invoke_trace continuation (VObj (normalize result)))
      with ([message_event response; result_log response result]
            ++ invoke_trace continuation (VObj (normalize result)))%list.
    unfold invocations. rewrite omap_app. apply invocations_invoke.
  - rewrite (_onMessage_unknown _ _ He _ Hr Hc). split; [done|].
    destruct (msg_id response) as [id|]; [|done].
    cbn in Hc. by rewrite Hc.
Qed.

(** Scenario A, second half: the response to the first command. *)
Lemma response_resolves_call_witness :
  msg_error scenario_A_response = VUndefined
  ∧ msg_result scenario_A_response = Some []
  ∧ msg_id scenario_A_response = Some 1
  ∧ _messageCallbacks (final (scenario_A connected_first)) !! 1
    = Some (UserFn 0)
  ∧ invocations
      (trace (_onMessage scenario_A_response
                (final (scenario_A connected_first))))
    = [(UserFn 0, VObj [("result", VObj [("type", VStr "undefined")])])]
  ∧ _messageCallbacks
      (final (_onMessage scenario_A_response
                (final (scenario_A connected_first))))
    = delete 1 (_messageCallbacks (final (scenario_A connected_first))).
Proof.
  assert (_messageCallbacks (final (scenario_A connected_first)) !! 1
          = Some (UserFn 0)) as Hc by (vm_compute; reflexivity).
  pose proof (response_resolves_call scenario_A_response []
                (final (scenario_A connected_first)) eq_refl eq_refl) as H.
  cbv zeta in H. change (msg_id scenario_A_response) with (Some 1) in H.
  cbv iota in H. rewrite Hc in H. destruct H as (_ & Hcall & Hgone).
  split; [reflexivity|]. split; [reflexivity|]. split; [reflexivity|].
  split; [exact Hc|]. split; [exact Hcall|exact Hgone].
Defined.

(** C10, as amended.  For every message whose error field is absent or
    falsy and whose result has no nested [result], the router writes
    [{type: "undefined"}] into [result.result] of the message, whatever the
    table holds: with no function stored for the id of the message the
    table and the trace show no call, and the message is changed all the
    same; with one, it is called with the result as changed. *)
Theorem absent_result_normalized (response : Message) (result : object)
    (s : State) :
  truthy (msg_error response) = false →
  msg_result response = Some result →
  get_own result "result" = None →
  let result' := assign result "result" (VObj [("type", VStr "undefined")]) in
  let r := _onMessage response s in
  outcome r
  = Normal (mkMessage (msg_id response) (msg_error response) (Some result')
                      (msg_method response) (msg_params response))
  ∧ match callback_for (msg_id response) (_messageCallbacks s) with
    | Some continuation =>
        invocations (trace r) = [(continuation, VObj result')]
    | None => invocations (trace r) = [] ∧ final r = s
    end.
Proof.
  intros He Hr Habsent result' r.
  assert (normalize result = result') as Hnorm.
  { unfold normalize, get. by rewrite Habsent. }
  unfold r.
  destruct (callback_for (msg_id response) (_messageCallbacks s))
    as [continuation|] eqn:Hc.
  - rewrite (_onMessage_pending _ _ He _ _ Hr Hc). unfold normalized.
    rewrite Hnorm. split; [done|]. cbn [trace].
    change (message_event response :: result_log response result
            :: invoke_trace continuation (VObj result'))
      with ([message_event response; result_log response result]
            ++ invoke_trace continuation (VObj result'))%list.
    unfold invocations. rewrite omap_app. apply invocations_invoke.
  - rewrite (_onMessage_unknown _ _ He _ Hr Hc). unfold normalized.
    rewrite Hnorm. done.
Qed.

Lemma absent_result_normalized_witness :
  truthy (msg_error late_response) = false
  ∧ msg_result late_response = Some []
  ∧ get_own [] "result" = None
  ∧ callback_for (msg_id late_response) (_messageCallbacks connected_first)
    = None
  ∧ outcome (_onMessage late_response connected_first)
    = Normal (mkMessage (Some 7) VUndefined
                (Some [("result", VObj [("type", VStr "undefined")])])
                None VUndefined).
Proof.
  pose proof (absent_result_normalized late_response [] connected_first
                eq_refl eq_refl eq_refl) as [Hout _].
  split; [reflexivity|]. split; [reflexivity|]. split; [reflexivity|].
  split; [reflexivity|exact Hout].
Defined.

(** C10 as stated fails on the code: a message that has an error next to
    its result is reported as an error, and its result is left alone. *)
Lemma absent_result_counterexample :
  msg_result failed_response = Some []
  ∧ get_own [] "result" = None
  ∧ outcome (_onMessage failed_response connected_first)
    = Normal failed_response
  ∧ outcome (_onMessage failed_response connected_first)
    ≠ Normal (mkMessage (Some 1) (VObj [("message", VStr "Target closed")])
                (Some [("result", VObj [("type", VStr "undefined")])])
                None VUndefined).
Proof. repeat split. discriminate. Qed.

(** ** Events *)

Lemma split_dot_dotless s : dotless s = true → split_dot s = (s, []).
Proof.
  induction s as [|c s IH]; simpl; [done|].
  intros [Hc Hs]%andb_prop. rewrite (IH Hs).
  by destruct (Ascii.eqb c ".").
Qed.

(** The pieces of a method, read off the text: what stands before its
    first separator, and the pieces of what follows. *)
Lemma split_dot_separator d t :
  dotless d = true →
  split_dot (d +:+ String "." t) = (d, (split_dot t).1 :: (split_dot t).2).
Proof.
  intros Hd. induction d as [|c d IH]; simpl.
  - by destruct (split_dot t).
  - simpl in Hd. apply andb_prop in Hd as [Hc Hd].
    rewrite (IH Hd). by destruct (Ascii.eqb c ".").
Qed.

(** On a method with a single separator the router and the specification
    split alike. *)
Lemma split_dot_single d e :
  dotless d = true → dotless e = true →
  split_dot (d +:+ String "." e) = (d, [e])
  ∧ split_first_separator (d +:+ String "." e) = (d, Some e).
Proof.
  intros Hd He. split.
  - by rewrite split_dot_separator, split_dot_dotless.
  - clear He. induction d as [|c d IH]; simpl; [done|].
    simpl in Hd. apply andb_prop in Hd as [Hc Hd].
    rewrite (IH Hd). by destruct (Ascii.eqb c ".").
Qed.

Lemma word_dotless s : word s = true → dotless s = true.
Proof.
  induction s as [|c s IH]; simpl; [done|].
  intros [Hc Hs]%andb_prop. rewrite (IH Hs), andb_true_r.
  destruct (Ascii.eqb_spec c ".") as [->|]; [|done].
  by vm_compute in Hc.
Qed.

Lemma identifier_dotless s : identifier s = true → dotless s = true.
Proof. intros [_ Hs]%andb_prop. by apply word_dotless. Qed.

Lemma append_cons c a b : String c a +:+ b = String c (a +:+ b).
Proof. reflexivity. Qed.

(** The second piece of a method: the text between its first separator
    and its second, or its end. *)
Lemma split_dot_second d e rest :
  dotless d = true → dotless e = true →
  rest = "" ∨ (∃ rest', rest = "." +:+ rest') →
  (split_dot (d +:+ "." +:+ e +:+ rest)).1 = d
  ∧ (split_dot (d +:+ "." +:+ e +:+ rest)).2 !! 0%nat = Some e.
Proof.
  intros Hd He Hrest.
  change (d +:+ "." +:+ e +:+ rest) with (d +:+ String "." (e +:+ rest)).
  rewrite split_dot_separator by done. cbn [fst snd lookup list_lookup].
  split; [done|]. f_equal. destruct Hrest as [->|[rest' ->]].
  - replace (e +:+ "") with e; [by rewrite split_dot_dotless|].
    clear. induction e as [|c e IH]; [done|].
    rewrite append_cons. by rewrite <- IH.
  - change ("." +:+ rest') with (String "." rest').
    by rewrite split_dot_separator.
Qed.

Lemma event_type_string_at others i :
  event_type (string_at others i) = others !! i.
Proof. unfold string_at. by destruct (others !! i). Qed.

Lemma filter_nothing {A} (P : A → Prop) `{∀ x, Decision (P x)} (l : list A) :
  (∀ x, ¬ P x) → filter P l = [].
Proof.
  intros HP. induction l as [|x l IH]; [done|].
  rewrite filter_cons_False by apply HP. done.
Qed.

(** C4, as amended.  A message with neither an error nor a result is an
    event.  Its method is split at every separator: the domain is the first
    piece and the type of the event the second, that is the text between
    the first separator and the second, or the end when there is one
    separator only.  For a domain named as the domains of the protocol are
    and a type that is a word, the event is published once, with the
    [params] of the message, on the object that [exports] has under the
    name of the domain.  The listeners attached to that object for that
    type are called with the [params], whatever namespaces they were
    registered with, and no other listener is: none when [exports] has no
    object under that name, none attached to another object, none of
    another type.  For a method without separator the type is [undefined]:
    no listener is called, and the router throws when [exports] has an
    object under the name the method is. *)
Theorem event_published (response : Message) (method : string) (s : State)
    (subs : list Subscription) :
  msg_error response = VUndefined →
  msg_result response = None →
  msg_method response = Some method →
  let r := _onMessage response s in
  let object_of domain := object_id <$> members (exports s) !! domain in
  let message := (TExports, VStr "message", VArr [message_object response]) in
  (∀ d e rest,
     method = d +:+ "." +:+ e +:+ rest →
     capitalised d = true →
     dotless d = true →
     identifier e = true →
     rest = "" ∨ (∃ rest', rest = "." +:+ rest') →
     outcome r = Normal response
     ∧ final r = s
     ∧ published (trace r)
       = [message; (TObject (object_of d), VStr e, msg_params response)]
     ∧ notified subs (trace r)
       = match object_of d with
         | Some o =>
             (λ sub, (sub_listener sub, msg_params response))
               <$> filter (λ sub, sub_object sub = o ∧ sub_type sub = e) subs
         | None => []
         end)
  ∧ (capitalised method = true →
     dotless method = true →
     final r = s
     ∧ published (trace r)
       = [message;
          (TObject (object_of method), VUndefined, msg_params response)]
     ∧ notified subs (trace r) = []
     ∧ (outcome r = Normal response ↔ object_of method = None)).
Proof.
  intros He%absent_is_falsy Hr Hm r object_of message.
  unfold message, object_of, r. clear r object_of message.
  rewrite (_onMessage_event _ _ He _ Hr Hm). cbv zeta. split.
  - intros d e rest -> _ Hd He' Hrest.
    destruct (split_dot_second d e rest Hd (identifier_dotless e He') Hrest)
      as [Hfirst Hsecond].
    rewrite Hfirst. unfold string_at. rewrite Hsecond.
    cbn [outcome final trace].
    assert (rejects (TObject (object_id <$> members (exports s) !! d))
              (VStr e) = false) as ->
      by (by destruct (members (exports s) !! d)).
    repeat split. unfold notified. rewrite !bind_cons.
    cbn [delivered message_event app].
    change ([] ≫= delivered subs) with (@nil (func * value)).
    rewrite app_nil_r.
    destruct (members (exports s) !! d) as [o|]; [|done].
    cbn [fmap option_fmap option_map event_type]. f_equal.
    apply list_filter_iff. intros sub. unfold registered_for.
    split; intros [? ?]; split; congruence.
  - intros _ Hdotless. rewrite (split_dot_dotless method Hdotless).
    cbn [fst snd string_at lookup list_lookup outcome final trace].
    repeat split.
    + unfold notified. rewrite !bind_cons.
      cbn [delivered message_event app].
      change ([] ≫= delivered subs) with (@nil (func * value)).
      rewrite app_nil_r.
      destruct (members (exports s) !! method) as [o|]; [|done].
      cbn [fmap option_fmap option_map event_type].
      rewrite filter_nothing; [done|]. by intros sub [_ ?].
    + by destruct (members (exports s) !! method).
    + by destruct (members (exports s) !! method).
Qed.

(** Scenario B.  Of the four listeners, the two attached to [exports.Page]
    for [loadEventFired] are called, the one registered with a namespace
    included. *)
Lemma event_published_witness :
  msg_error scenario_B_event = VUndefined
  ∧ msg_result scenario_B_event = None
  ∧ msg_method scenario_B_event = Some "Page.loadEventFired"
  ∧ object_id <$> members (exports listening) !! "Page" = Some 0%nat
  ∧ notified scenario_B_listeners
      (trace (_onMessage scenario_B_event listening))
    = [(UserFn 0, VObj [("timestamp", VNum 42)]);
       (UserFn 3, VObj [("timestamp", VNum 42)])].
Proof.
  destruct (event_published scenario_B_event "Page.loadEventFired"
              listening scenario_B_listeners eq_refl eq_refl eq_refl)
    as [Hevent _].
  destruct (Hevent "Page" "loadEventFired" "" eq_refl eq_refl eq_refl
              eq_refl (or_introl eq_refl)) as (_ & _ & _ & Hnotified).
  split; [reflexivity|]. split; [reflexivity|]. split; [reflexivity|].
  split; [reflexivity|]. rewrite Hnotified. reflexivity.
Defined.

(** C4 as stated fails on the code: for a method with two separators the
    pair of the specification is ([Page], [frame.navigated]), and the
    router publishes [frame]: the listener registered for the other pair
    ([Page], [frame]) is called as well. *)
Lemma event_published_counterexample :
  split_first_separator "Page.frame.navigated"
  = ("Page", Some "frame.navigated")
  ∧ sub_event <$> nested_listeners = ["frame.navigated"; "frame"]
  ∧ published (trace (_onMessage nested_event listening))
    = [(TExports, VStr "message", VArr [message_object nested_event]);
       (TObject (Some 0%nat), VStr "frame",
        VObj [("timestamp", VNum 42)])]
  ∧ notified nested_listeners
      (trace (_onMessage nested_event listening))
    = [(UserFn 0, VObj [("timestamp", VNum 42)]);
       (UserFn 1, VObj [("timestamp", VNum 42)])].
Proof. vm_compute. done. Qed.

(** * Further properties *)

(** ** The parameter object, in full *)

Lemma place_last (o : object) k v :
  array_index k = None → place o k v = (o ++ [(k, v)])%list.
Proof.
  intros Hk. induction o as [|[k' v'] o IH]; simpl; [done|].
  unfold listed_before. rewrite Hk. by rewrite IH.
Qed.

Lemma assign_fresh (o : object) k v :
  get_own o k = None → array_index k = None →
  assign o k v = (o ++ [(k, v)])%list.
Proof.
  intros Hnone Hk. unfold assign, has_key. rewrite Hnone.
  by apply place_last.
Qed.

Lemma get_own_app_fresh (o : object) k k' v :
  k ≠ k' → get_own o k' = None → get_own (o ++ [(k, v)])%list k' = None.
Proof.
  intros Hne. induction o as [|[k0 v0] o IH]; simpl.
  - by destruct (String.eqb_spec k k').
  - destruct (String.eqb k0 k'); [done|]. apply IH.
Qed.

Lemma params_from_named args rest : ∀ i params,
  NoDup (name <$> rest) →
  Forall (λ d, array_index (name d) = None) rest →
  (∀ d, d ∈ rest → get_own params (name d) = None) →
  params_from args i rest params
  = (params ++ imap (λ j d, (name d, arg_at args (i + j))) rest)%list.
Proof.
  induction rest as [|d rest IH]; intros i params Hnodup Hnames Hfresh.
  - by rewrite app_nil_r.
  - rewrite fmap_cons in Hnodup. apply NoDup_cons in Hnodup as [Hd Hnodup].
    apply Forall_cons in Hnames as [Hname Hnames].
    cbn [params_from]. rewrite assign_fresh by (apply Hfresh; by left) || done.
    rewrite IH; [|done|done|].
    + rewrite <- app_assoc. cbn [app]. rewrite imap_cons, Nat.add_0_r.
      do 2 f_equal. apply imap_ext. intros j d' _. simpl.
      by rewrite Nat.add_succ_r.
    + intros d' Hd'. apply get_own_app_fresh; [|apply Hfresh; by right].
      intros Heq. apply Hd. rewrite Heq. by apply list_elem_of_fmap_2.
Qed.

Lemma split_callback_function args f :
  split_callback (args ++ [VFun f]) = (args, Some f).
Proof.
  unfold split_callback. rewrite last_snoc. cbn [is_function].
  by rewrite removelast_last.
Qed.

Lemma split_callback_plain args :
  (∀ f, last args ≠ Some (VFun f)) → split_callback args = (args, None).
Proof.
  intros Hlast. unfold split_callback.
  destruct (last args) as [[]|] eqn:Hl; try done. by destruct (Hlast f).
Qed.

(** X1.  A command whose parameters have different names, each of which
    makes an ordinary property, is sent with the parameter object that
    lists the parameters in the order of the signature, each bound to the
    positional argument of the same rank, and to [undefined] past the last
    argument.
    The arguments are those before the callback, when the call ends with
    one, and all of them otherwise. *)
Theorem params_in_signature_order method signature args
    (callback : option func) (s : State) (p : Port) :
  _port s = Some p →
  NoDup (name <$> signature) →
  Forall (λ d, ordinary (name d)) signature →
  (callback = None → ∀ f, last args ≠ Some (VFun f)) →
  let varargs :=
    (args ++ match callback with Some f => [VFun f] | None => [] end)%list in
  envelopes (trace (_send method signature varargs s))
  = [VObj [("cmd", VStr "sendCommand"); ("method", VStr method);
           ("params", VObj (named_arguments signature args));
           ("id", VNum (_messageId s))]].
Proof.
  intros Hp Hnodup Hnames Hlast varargs.
  destruct (_send_connected method signature varargs s p Hp)
    as (cb & promise & _ & _ & _ & _ & Henv & _).
  rewrite Henv. unfold send_message, named_arguments.
  assert ((split_callback varargs).1 = args) as ->.
  { unfold varargs. destruct callback as [f|].
    - by rewrite split_callback_function.
    - rewrite app_nil_r. by rewrite split_callback_plain by auto. }
  rewrite params_from_named; [done|done| |done].
  eapply Forall_impl; [exact Hnames|]. by intros d [? _].
Qed.

Lemma params_in_signature_order_witness :
  envelopes (trace (reload_ignoring_cache connected_first))
  = [VObj [("cmd", VStr "sendCommand"); ("method", VStr "Page.reload");
           ("params",
            VObj [("ignoreCache", VBool true);
                  ("scriptToEvaluateOnLoad", VUndefined)]);
           ("id", VNum 1)]].
Proof.
  apply (params_in_signature_order "Page.reload"
           [mkParameter "ignoreCache" true;
            mkParameter "scriptToEvaluateOnLoad" true]
           [VBool true] (Some (UserFn 0)) connected_first (mkPort 0)).
  - reflexivity.
  - apply (bool_decide_unpack _). vm_compute. reflexivity.
  - repeat constructor; discriminate.
  - discriminate.
Defined.

Lemma arg_at_take args n i :
  (i < n)%nat → arg_at (take n args) i = arg_at args i.
Proof. intros Hi. unfold arg_at. by rewrite lookup_take_lt. Qed.

Lemma params_from_take args n rest : ∀ i params,
  (i + length rest ≤ n)%nat →
  params_from (take n args) i rest params = params_from args i rest params.
Proof.
  induction rest as [|d rest IH]; intros i params Hn; [done|].
  cbn [params_from length] in *. rewrite arg_at_take by lia.
  apply IH. lia.
Qed.

(** X2.  Arguments beyond the parameters of the signature are dropped
    without a word: the envelope, the id and the stored callback are those
    of the call without them. *)
Theorem surplus_arguments_dropped method signature args extra f
    (s : State) :
  (length signature ≤ length args)%nat →
  _send method signature (args ++ extra ++ [VFun f]) s
  = _send method signature (args ++ [VFun f]) s.
Proof.
  intros Hlen. destruct (_port s) as [p|] eqn:Hp;
    [|by rewrite !_send_disconnected].
  rewrite (_send_callback _ _ (args ++ extra ++ [VFun f]) s p
             (args ++ extra) f Hp)
    by (rewrite app_assoc; apply split_callback_function).
  rewrite (_send_callback _ _ (args ++ [VFun f]) s p args f Hp
             (split_callback_function _ _)).
  cbv zeta.
  rewrite <- (params_from_take (args ++ extra) (length args))
    by (simpl; lia).
  by rewrite take_app_length.
Qed.

Lemma surplus_arguments_dropped_witness :
  _send "Page.navigate" [mkParameter "url" false]
        [VStr "http://example.com"; VBool true; VNum 3; VFun (UserFn 0)]
        connected_first
  = scenario_A connected_first.
Proof.
  apply (surplus_arguments_dropped "Page.navigate" [mkParameter "url" false]
           [VStr "http://example.com"] [VBool true; VNum 3] (UserFn 0)
           connected_first).
  simpl. lia.
Defined.

(** What a send stores, returns and creates, by the last argument. *)
Lemma _send_stored method signature varargs (s : State) (p : Port) :
  _port s = Some p →
  let r := _send method signature varargs s in
  match (split_callback varargs).2 with
  | Some f =>
      outcome r = Normal None
      ∧ _messageCallbacks (final r) !! _messageId s = Some f
      ∧ deferreds (final r) = deferreds s
      ∧ settlements (trace r) = []
  | None =>
      outcome r = Normal (Some (deferreds s))
      ∧ _messageCallbacks (final r) !! _messageId s
        = Some (ResolveFn (deferreds s))
      ∧ deferreds (final r) = S (deferreds s)
      ∧ settlements (trace r) = []
  end.
Proof.
  intros Hp r. unfold r.
  destruct (split_callback varargs) as [args [f|]] eqn:Hsplit; cbn [snd].
  - rewrite (_send_callback _ _ _ _ _ _ _ Hp Hsplit). cbn.
    by rewrite lookup_insert_eq.
  - rewrite (_send_promise _ _ _ _ _ _ Hp Hsplit). cbn.
    by rewrite lookup_insert_eq.
Qed.

(** X3.  The two calling conventions of a command exclude each other.  With
    a function as last argument the function is stored under the new id, no
    Deferred is created and nothing is returned; without one a Deferred is
    created, the function stored resolves it, and its promise is returned. *)
Theorem callback_or_promise method signature varargs (s : State) (p : Port) :
  _port s = Some p →
  let r := _send method signature varargs s in
  match (split_callback varargs).2 with
  | Some f =>
      last varargs = Some (VFun f)
      ∧ outcome r = Normal None
      ∧ _messageCallbacks (final r) !! _messageId s = Some f
      ∧ deferreds (final r) = deferreds s
      ∧ settlements (trace r) = []
  | None =>
      (∀ f, last varargs ≠ Some (VFun f))
      ∧ outcome r = Normal (Some (deferreds s))
      ∧ _messageCallbacks (final r) !! _messageId s
        = Some (ResolveFn (deferreds s))
      ∧ deferreds (final r) = S (deferreds s)
      ∧ settlements (trace r) = []
  end.
Proof.
  intros Hp r. unfold r.
  pose proof (_send_stored method signature varargs s p Hp) as Hstored.
  cbv zeta in Hstored.
  destruct (split_callback varargs) as [args [f|]] eqn:Hsplit; cbn [snd] in *.
  - split; [|done]. unfold split_callback in Hsplit.
    destruct (last varargs) as [[]|]; simplify_eq/=; done.
  - split; [|done]. intros f Hlast. unfold split_callback in Hsplit.
    rewrite Hlast in Hsplit. done.
Qed.

Lemma callback_or_promise_witness :
  outcome (scenario_A connected_first) = Normal None
  ∧ _messageCallbacks (final (scenario_A connected_first)) !! 1
    = Some (UserFn 0).
Proof.
  pose proof (callback_or_promise "Page.navigate" [mkParameter "url" false]
                [VStr "http://example.com"; VFun (UserFn 0)]
                connected_first (mkPort 0) eq_refl) as H.
  cbv zeta in H.
  change (split_callback [VStr "http://example.com"; VFun (UserFn 0)]).2
    with (Some (UserFn 0)) in H.
  destruct H as (_ & Hout & Htable & _). split; [exact Hout|exact Htable].
Defined.

(** ** A command and its response *)

Lemma table_below_fresh s :
  table_below s → _messageCallbacks s !! _messageId s = None.
Proof.
  intros Hinv. destruct (_messageCallbacks s !! _messageId s) eqn:Hl; [|done].
  apply Hinv in Hl. simpl in Hl. lia.
Qed.

Lemma settlements_invoke f v :
  settlements (invoke_trace f v)
  = match f with ResolveFn d => [(d, true, v)] | UserFn _ => [] end.
Proof. by destruct f. Qed.

(** The response to the command that has just been sent. *)
Lemma response_after_send method signature varargs s p response result :
  _port s = Some p →
  table_below s →
  truthy (msg_error response) = false →
  msg_result response = Some result →
  msg_id response = Some (_messageId s) →
  ∃ callback,
    _messageCallbacks (final (_send method signature varargs s)) !! _messageId s
    = Some callback
    ∧ _onMessage response (final (_send method signature varargs s))
      = mkRun (Normal (normalized response result))
          (set_messageCallbacks (_messageCallbacks s)
             (final (_send method signature varargs s)))
          (message_event response :: result_log response result
             :: invoke_trace callback (VObj (normalize result))).
Proof.
  intros Hp Hinv He Hr Hid.
  destruct (_send_connected method signature varargs s p Hp)
    as (callback & promise & _ & _ & Htable & _).
  exists callback. rewrite Htable, lookup_insert_eq. split; [done|].
  rewrite (_onMessage_pending _ _ He result callback Hr)
    by (rewrite Hid, Htable; apply lookup_insert_eq).
  rewrite Hid, Htable. cbn [delete_callback].
  by rewrite delete_insert_id by by apply table_below_fresh.
Qed.

(** X4.  A command sent with a callback and then answered: the response
    that carries the id of the command calls that callback, once, with the
    result object, calls nothing else, and leaves the table as it was
    before the command. *)
Theorem callback_round_trip method signature args (n : nat) (s : State)
    (p : Port) (response : Message) (result : object) :
  _port s = Some p →
  table_below s →
  truthy (msg_error response) = false →
  msg_result response = Some result →
  msg_id response = Some (_messageId s) →
  let sent := _send method signature (args ++ [VFun (UserFn n)]) s in
  let routed := _onMessage response (final sent) in
  invocations (trace routed) = [(UserFn n, VObj (normalize result))]
  ∧ settlements (trace routed) = []
  ∧ _messageCallbacks (final routed) = _messageCallbacks s.
Proof.
  intros Hp Hinv He Hr Hid sent routed.
  destruct (response_after_send method signature (args ++ [VFun (UserFn n)])
              s p response result Hp Hinv He Hr Hid)
    as (callback & Hc & Hrouted).
  pose proof (_send_stored method signature
                (args ++ [VFun (UserFn n)]) s p Hp) as Hconv.
  cbv zeta in Hconv. rewrite split_callback_function in Hconv.
  destruct Hconv as (_ & Hf & _).
  assert (callback = UserFn n) as -> by congruence.
  unfold routed, sent. rewrite Hrouted. done.
Qed.

Lemma callback_round_trip_witness :
  invocations
    (trace (_onMessage scenario_A_response
              (final (scenario_A connected_first))))
  = [(UserFn 0, VObj [("result", VObj [("type", VStr "undefined")])])]
  ∧ _messageCallbacks
      (final (_onMessage scenario_A_response
                (final (scenario_A connected_first))))
    = _messageCallbacks connected_first.
Proof.
  pose proof (callback_round_trip "Page.navigate" [mkParameter "url" false]
                [VStr "http://example.com"] 0 connected_first (mkPort 0)
                scenario_A_response [] eq_refl (map_Forall_empty _)
                eq_refl eq_refl eq_refl) as (Hcall & _ & Htable).
  split; [exact Hcall|exact Htable].
Defined.

(** X5.  A command sent without a callback and then answered: the promise
    returned is that of a new Deferred, and the response that carries the
    id of the command resolves this Deferred, once, with the result object,
    and leaves the table as it was before the command. *)
Theorem promise_round_trip method signature varargs (s : State) (p : Port)
    (response : Message) (result : object) :
  _port s = Some p →
  table_below s →
  (split_callback varargs).2 = None →
  truthy (msg_error response) = false →
  msg_result response = Some result →
  msg_id response = Some (_messageId s) →
  let sent := _send method signature varargs s in
  let routed := _onMessage response (final sent) in
  outcome sent = Normal (Some (deferreds s))
  ∧ settlements (trace sent) = []
  ∧ settlements (trace routed)
    = [(deferreds s, true, VObj (normalize result))]
  ∧ _messageCallbacks (final routed) = _messageCallbacks s.
Proof.
  intros Hp Hinv Hnone He Hr Hid sent routed.
  destruct (response_after_send method signature varargs s p response result
              Hp Hinv He Hr Hid) as (callback & Hc & Hrouted).
  pose proof (_send_stored method signature varargs s p Hp) as Hconv.
  cbv zeta in Hconv. rewrite Hnone in Hconv.
  destruct Hconv as (Hout & Hf & _ & Hquiet).
  assert (callback = ResolveFn (deferreds s)) as -> by congruence.
  unfold routed, sent. rewrite Hrouted. done.
Qed.

Lemma promise_round_trip_witness :
  outcome (_send "Page.enable" [] [] connected_first) = Normal (Some 0%nat)
  ∧ settlements
      (trace (_onMessage scenario_A_response
                (final (_send "Page.enable" [] [] connected_first))))
    = [(0%nat, true, VObj [("result", VObj [("type", VStr "undefined")])])].
Proof.
  pose proof (promise_round_trip "Page.enable" [] [] connected_first
                (mkPort 0) scenario_A_response [] eq_refl
                (map_Forall_empty _) eq_refl eq_refl eq_refl eq_refl)
    as (Hout & _ & Hsettled & _).
  split; [exact Hout|exact Hsettled].
Defined.

(** ** The router as a whole *)

(** The five ways through [_onMessage]; an event may end in a throw. *)
Lemma _onMessage_cases response s :
  (truthy (msg_error response) = true
   ∧ _onMessage response s
     = mkRun (Normal response) s
         [message_event response;
          Log [PStr "  !!! Error: "; PJson (msg_error response)];
          Trigger TExports (VStr "error") (VArr [msg_error response])])
  ∨ (∃ result callback,
       callback_for (msg_id response) (_messageCallbacks s) = Some callback
       ∧ _onMessage response s
         = mkRun (Normal (normalized response result))
             (set_messageCallbacks
                (delete_callback (msg_id response) (_messageCallbacks s)) s)
             (message_event response :: result_log response result
                :: invoke_trace callback (VObj (normalize result))))
  ∨ (∃ result,
       _onMessage response s
       = mkRun (Normal (normalized response result)) s
           [message_event response; result_log response result])
  ∨ (∃ method o on type,
       _onMessage response s
       = mkRun o s
           [message_event response;
            Log [PStr "  Event: "; PVal (VStr method)];
            Trigger on type (msg_params response)])
  ∨ _onMessage response s
    = mkRun (Throw (TypeError "Cannot read property split")) s
        [message_event response; Log [PStr "  Event: "; PVal VUndefined]].
Proof.
  destruct (truthy (msg_error response)) eqn:He.
  { left. split; [done|]. by apply _onMessage_error. }
  right. destruct (msg_result response) as [result|] eqn:Hr.
  - destruct (callback_for (msg_id response) (_messageCallbacks s))
      as [callback|] eqn:Hc.
    + left. exists result, callback. split; [done|].
      by apply _onMessage_pending.
    + right. left. exists result. by apply _onMessage_unknown.
  - do 2 right. destruct (msg_method response) as [method|] eqn:Hm.
    + left. do 4 eexists. by apply _onMessage_event.
    + right. by apply _onMessage_no_method.
Qed.

(** X6.  Whatever the message, the listeners of ["message"] are the first
    to hear of it, and they are given the message as it came, before the
    router has written to it and also when the router then throws. *)
Theorem message_published_first (response : Message) (s : State) :
  ∃ t,
    trace (_onMessage response s)
    = Trigger TExports (VStr "message") (VArr [message_object response]) :: t.
Proof.
  destruct (_onMessage_cases response s)
    as [[_ ->]|[(? & ? & _ & ->)|[(? & ->)|[(? & ? & ? & ? & ->)| ->]]]];
    eexists; reflexivity.
Qed.

Lemma _onMessage_effects response s :
  envelopes (trace (_onMessage response s)) = []
  ∧ opened_ports (trace (_onMessage response s)) = []
  ∧ (final (_onMessage response s) = s
     ∨ ∃ id, msg_id response = Some id
             ∧ is_Some (_messageCallbacks s !! id)
             ∧ final (_onMessage response s)
               = set_messageCallbacks (delete id (_messageCallbacks s)) s).
Proof.
  destruct (_onMessage_cases response s)
    as [[_ ->]|[(result & callback & Hc & ->)
               |[(? & ->)|[(? & ? & ? & ? & ->)| ->]]]];
    cbn; try (by repeat split; try left; destruct s).
  repeat split; [by destruct callback..|].
  right. destruct (msg_id response) as [id|]; [|done].
  exists id. repeat split. simpl in Hc. by rewrite Hc.
Qed.






(** X9.  A message with an error completes no command, not even the one
    whose id it carries: the error is published to the listeners of
    ["error"], no stored function is called, no Deferred is resolved or
    rejected, and the state, the entry of that id included, is the state
    before. *)
Theorem error_completes_nothing (response : Message) (s : State) :
  truthy (msg_error response) = true →
  let r := _onMessage response s in
  outcome r = Normal response
  ∧ final r = s
  ∧ invocations (trace r) = []
  ∧ settlements (trace r) = []
  ∧ published (trace r)
    = [(TExports, VStr "message", VArr [message_object response]);
       (TExports, VStr "error", VArr [msg_error response])].
Proof. intros He r. unfold r. by rewrite _onMessage_error. Qed.

Lemma error_completes_nothing_witness :
  truthy (msg_error failed_response) = true
  ∧ callback_for (msg_id failed_response)
      (_messageCallbacks
         (final (_onMessage failed_response
                   (final (scenario_A connected_first)))))
    = Some (UserFn 0).
Proof.
  pose proof (error_completes_nothing failed_response
                (final (scenario_A connected_first)) eq_refl)
    as (_ & Hfinal & _).
  split; [reflexivity|]. rewrite Hfinal. reflexivity.
Defined.

(** ** Connecting and disconnecting *)

Ltac run_connection :=
  unfold connectToURL, connect, disconnect, attachDebugger_callback,
    _onError, _onConnect, _onDisconnect, new_Deferred, triggerHandler,
    rejects, _trace;
  run_monad.

(** The same, by cases on the port and on the attempt of [s]. *)
Ltac connection_cases s :=
  run_connection;
  destruct (_connectDeferred s) eqn:?Hd; simpl; rewrite ?Hd;
  destruct (_port s) eqn:?Hp; simpl; rewrite ?Hp, ?Hd; simpl.

(** X10.  [disconnect] tells nobody: it publishes no event, calls no stored
    function and settles no Deferred, and the commands that wait for a
    response stay in the table.  Called again, it does nothing at all. *)
Theorem disconnect_silent_idempotent (s : State) :
  let r := disconnect s in
  outcome r = Normal tt
  ∧ _port (final r) = None
  ∧ published (trace r) = []
  ∧ invocations (trace r) = []
  ∧ settlements (trace r) = []
  ∧ _messageCallbacks (final r) = _messageCallbacks s
  ∧ disconnect (final r) = mkRun (Normal tt) (final r) [].
Proof. connection_cases s; done. Qed.

Lemma connect_closes s : _port (final (connect s)) = None.
Proof. connection_cases s; done. Qed.

Lemma connectToURL_closes s : _port (final (connectToURL s)) = None.
Proof. connection_cases s; done. Qed.

(** X11.  Between a call of [connect] or [connectToURL] and the answer of
    the extension no port is open, also when one was before: a command
    called in between is lost, without an envelope, an id or an error. *)
Theorem commands_lost_while_connecting method signature varargs (s : State) :
  _send method signature varargs (final (connect s))
  = mkRun (Normal None) (final (connect s)) []
  ∧ _send method signature varargs (final (connectToURL s))
    = mkRun (Normal None) (final (connectToURL s)) [].
Proof.
  split; apply _send_disconnected;
    [apply connect_closes|apply connectToURL_closes].
Qed.

(** What the answer of the extension does, with and without an error. *)
Lemma attachDebugger_callback_opens error s :
  truthy error = false →
  attachDebugger_callback error s
  = mkRun (Normal tt)
      (set_connectDeferred None
         (set_port (Some (mkPort (_portId s)))
            (set_portId (js_succ (_portId s)) s)))
      ([RuntimeConnect (mkPort (_portId s));
        AddListener (mkPort (_portId s)) OnDisconnect;
        AddListener (mkPort (_portId s)) OnMessage;
        Log [PStr "** Port connected **"]]
       ++ match _connectDeferred s with
          | Some d => [Resolve d VUndefined]
          | None => []
          end
       ++ [Trigger TExports (VStr "connect") VUndefined])%list.
Proof.
  intros He. unfold attachDebugger_callback. rewrite He.
  connection_cases s; try done;
    unfold set_connectDeferred, set_port, set_portId; simpl; by rewrite Hd.
Qed.

Lemma attachDebugger_callback_fails error s :
  truthy error = true →
  attachDebugger_callback error s
  = mkRun (Normal tt) (set_connectDeferred None s)
      (match _connectDeferred s with
       | Some d =>
           [Log [PStr "** !!! Port error: "; PJson error; PStr " **"];
            Reject d VUndefined]
       | None => []
       end
       ++ [Trigger TExports (VStr "error") (VArr [error])])%list.
Proof.
  intros He. unfold attachDebugger_callback. rewrite He.
  connection_cases s; try done;
    unfold set_connectDeferred; destruct s; simpl in *; congruence.
Qed.

(** X12.  A connection that succeeds: when the extension answers [connect]
    without an error, a port named after [_portId] is opened and listened
    to, the attempt of [connectToURL], if there is one, is resolved, and
    ["connect"] is published; the table and the id counter are those of
    before the connection. *)
Theorem connect_succeeds (error : value) (s : State) :
  truthy error = false →
  let r := attachDebugger_callback error (final (connect s)) in
  _port (final r) = Some (mkPort (_portId s))
  ∧ _connectDeferred (final r) = None
  ∧ opened_ports (trace r) = [_portId s]
  ∧ published (trace r) = [(TExports, VStr "connect", VUndefined)]
  ∧ settlements (trace r)
    = match _connectDeferred s with
      | Some d => [(d, true, VUndefined)]
      | None => []
      end
  ∧ _messageCallbacks (final r) = _messageCallbacks s
  ∧ _messageId (final r) = _messageId s.
Proof.
  intros He r. unfold r. rewrite attachDebugger_callback_opens by done.
  connection_cases s; done.
Qed.

Lemma connect_succeeds_witness :
  truthy VUndefined = false
  ∧ _port (final (attachDebugger_callback VUndefined (final (connect initial))))
    = Some (mkPort 0).
Proof.
  pose proof (connect_succeeds VUndefined initial eq_refl) as (Hport & _).
  split; [reflexivity|exact Hport].
Defined.

(** X13.  A connection that fails: when the extension answers [connect]
    with an error, no port is open afterwards, not even the one that was
    open when [connect] was called; the attempt of [connectToURL], if there
    is one, is rejected, without a reason, and ["error"] is published with
    the error. *)
Theorem connect_fails (error : value) (s : State) :
  truthy error = true →
  let r := attachDebugger_callback error (final (connect s)) in
  _port (final r) = None
  ∧ _connectDeferred (final r) = None
  ∧ opened_ports (trace r) = []
  ∧ published (trace r) = [(TExports, VStr "error", VArr [error])]
  ∧ settlements (trace r)
    = match _connectDeferred s with
      | Some d => [(d, false, VUndefined)]
      | None => []
      end.
Proof.
  intros He r. unfold r. rewrite attachDebugger_callback_fails by done.
  connection_cases s; done.
Qed.

Lemma connect_fails_witness :
  truthy (VStr "Cannot attach") = true
  ∧ _port (final (attachDebugger_callback (VStr "Cannot attach")
                    (final (connect connected_first))))
    = None.
Proof.
  pose proof (connect_fails (VStr "Cannot attach") connected_first eq_refl)
    as (Hport & _).
  split; [reflexivity|exact Hport].
Defined.

(** X14.  One attempt at a time.  A second [connectToURL] rejects the
    Deferred of the first with ["CANCEL"] and waits on a new one; the answer
    of the extension then resolves the second and leaves the first alone. *)
Theorem second_attempt_cancels_first (s : State) :
  let first := connectToURL s in
  let second := connectToURL (final first) in
  let answered := attachDebugger_callback VUndefined (final second) in
  ∃ d1 d2,
    outcome first = Normal d1
    ∧ outcome second = Normal d2
    ∧ d1 ≠ d2
    ∧ settlements (trace second) = [(d1, false, VStr "CANCEL")]
    ∧ _connectDeferred (final second) = Some d2
    ∧ settlements (trace answered) = [(d2, true, VUndefined)]
    ∧ _connectDeferred (final answered) = None.
Proof.
  cbv zeta. exists (deferreds s), (S (deferreds s)).
  rewrite attachDebugger_callback_opens by done.
  connection_cases s; repeat split; try lia.
Qed.

(** X15.  An answer of the extension opens a port whether or not one is
    open.  After two calls of [connect] and the two answers to them, two
    ports have been opened and none closed: the module listens to both and
    sends to the second only. *)
Theorem second_answer_opens_second_port (s : State) :
  let requested := final (connect (final (connect s))) in
  let first := attachDebugger_callback VUndefined requested in
  let second := attachDebugger_callback VUndefined (final first) in
  opened_ports (trace first ++ trace second)
  = [_portId s; js_succ (_portId s)]
  ∧ closed_ports (trace first ++ trace second) = []
  ∧ _port (final first) = Some (mkPort (_portId s))
  ∧ _port (final second) = Some (mkPort (js_succ (_portId s))).
Proof.
  cbv zeta. rewrite !attachDebugger_callback_opens by done.
  connection_cases s; rewrite ?Hd; done.
Qed.

(** ** Whole runs *)

Lemma opened_ports_app t1 t2 :
  opened_ports (t1 ++ t2) = (opened_ports t1 ++ opened_ports t2)%list.
Proof. apply omap_app. Qed.

Lemma _send_opens_nothing method signature varargs s :
  _portId (final (_send method signature varargs s)) = _portId s
  ∧ opened_ports (trace (_send method signature varargs s)) = [].
Proof.
  destruct (_port s) as [p|] eqn:Hp; [|by rewrite _send_disconnected].
  destruct (split_callback varargs) as [args [f|]] eqn:Hsplit.
  - by rewrite (_send_callback _ _ _ _ _ _ _ Hp Hsplit).
  - by rewrite (_send_promise _ _ _ _ _ _ Hp Hsplit).
Qed.

Lemma perform_opens a s :
  opens a →
  _portId (final (perform a s)) = js_succ (_portId s)
  ∧ opened_ports (trace (perform a s)) = [_portId s].
Proof.
  destruct a as [| | | | | |error|]; simpl; try done.
  intros He. rewrite attachDebugger_callback_opens by done. cbn.
  by destruct (_connectDeferred s).
Qed.

Lemma perform_opens_nothing a s :
  ¬ opens a →
  _portId (final (perform a s)) = _portId s
  ∧ opened_ports (trace (perform a s)) = [].
Proof.
  destruct a as [method signature varargs|response| | | | |error|c ds];
    simpl; intros Hquiet.
  - destruct (_send_opens_nothing method signature varargs s) as [Hid Hnone].
    unfold mbind, M_bind.
    destruct (_send method signature varargs s) as [[?|?] s' t];
      cbn [final trace mret M_ret] in *; by rewrite ?app_nil_r.
  - destruct (_onMessage_effects response s) as (_ & Hnone & Hfinal).
    unfold mbind, M_bind.
    destruct (_onMessage response s) as [[?|?] s' t];
      cbn [final trace mret M_ret] in *; rewrite ?app_nil_r;
      (split; [|done]);
      by destruct Hfinal as [->|(? & _ & _ & ->)].
  - done.
  - connection_cases s; done.
  - connection_cases s; done.
  - connection_cases s; done.
  - rewrite attachDebugger_callback_fails
      by (by destruct (truthy error)).
    cbn. by destruct (_connectDeferred s).
  - done.
Qed.

Lemma run_ports actions : ∀ s,
  _portId s + Z.of_nat (length (opened_ports (run actions s).2))
    ≤ MAX_EXACT + 1 →
  opened_ports (run actions s).2
  = seqZ (_portId s) (Z.of_nat (length (opened_ports (run actions s).2))).
Proof.
  induction actions as [|a actions IH]; intros s; [done|].
  rewrite run_cons. cbn [snd]. rewrite opened_ports_app, length_app.
  destruct (decide (opens a)) as [Ha|Ha].
  - destruct (perform_opens a s Ha) as (Hid & Hports).
    rewrite Hports. cbn [length app]. intros Hbound.
    rewrite seqZ_cons by lia. f_equal.
    set (rest := opened_ports (run actions (final (perform a s))).2) in *.
    replace (Z.pred (Z.of_nat (1 + length rest)))
      with (Z.of_nat (length rest)) by lia.
    destruct (decide (length rest = 0%nat)) as [Hnil|Hsome].
    + rewrite Hnil. destruct rest; [|done]. by rewrite seqZ_nil.
    + assert (_portId (final (perform a s)) = Z.succ (_portId s)) as Hsucc.
      { rewrite Hid. unfold js_succ.
        destruct (Z.ltb_spec (_portId s) MAX_EXACT); lia. }
      unfold rest. rewrite IH at 1; fold rest; rewrite Hsucc; [done|lia].
  - destruct (perform_opens_nothing a s Ha) as (Hid & Hports).
    rewrite Hports. cbn [length app Nat.add]. intros Hbound.
    rewrite IH at 1; rewrite Hid; [done|lia].
Qed.

(** X16.  Every connection has a port of its own.  From the moment the
    module is loaded, the ports opened are named after 0, 1, 2, ... in this
    order, whatever happens in between, so that no name is used twice; this
    holds for the first 2^53 + 1 ports, the counter of the names being a
    Number. *)
Theorem port_names_count_up (actions : list action) :
  let ports := opened_ports (run actions initial).2 in
  Z.of_nat (length ports) ≤ MAX_EXACT + 1 →
  ports = seqZ 0 (Z.of_nat (length ports)) ∧ NoDup ports.
Proof.
  intros ports Hbound.
  assert (ports = seqZ 0 (Z.of_nat (length ports))) as Hports.
  { apply (run_ports actions initial). cbn [_portId initial]. fold ports. lia. }
  split; [done|]. rewrite Hports. apply NoDup_seqZ.
Qed.

Lemma port_names_count_up_witness :
  Z.of_nat (length (opened_ports (run reconnecting_session initial).2))
    ≤ MAX_EXACT + 1
  ∧ opened_ports (run reconnecting_session initial).2 = [0; 1].
Proof.
  split.
  - vm_compute. discriminate.
  - apply (port_names_count_up reconnecting_session). vm_compute.
    discriminate.
Defined.

Lemma run_table_keys actions : ∀ s id,
  is_Some (_messageCallbacks (run actions s).1 !! id) →
  is_Some (_messageCallbacks s !! id) ∨ id ∈ sent_ids (run actions s).2.
Proof.
  induction actions as [|a actions IH]; intros s id; [by left|].
  rewrite run_cons. cbn [fst snd]. rewrite sent_ids_app. intros Hid.
  apply IH in Hid as [Hid|Hid]; [|right; set_solver].
  destruct (decide (allocates a s)) as [Ha|Ha].
  - destruct (perform_allocates a s Ha) as (cb & _ & Htable & Hids & _).
    rewrite Htable in Hid. rewrite Hids.
    destruct (decide (_messageId s = id)) as [->|Hne]; [right; set_solver|].
    left. by rewrite lookup_insert_ne in Hid.
  - destruct (perform_quiet a s Ha) as (_ & Htable & _).
    left. destruct Hid as [f Hf]. exists f. by eapply lookup_weaken.
Qed.

(** X17.  The table holds sent commands only: from the moment the module
    is loaded, every id that has a function in the table is the id of an
    envelope that was handed to a port. *)
Theorem table_keys_were_sent (actions : list action) (id : Z) :
  is_Some (_messageCallbacks (run actions initial).1 !! id) →
  id ∈ sent_ids (run actions initial).2.
Proof.
  intros Hid. apply run_table_keys in Hid as [Hid|Hid]; [|done].
  by destruct Hid as [f Hf].
Qed.

Lemma table_keys_were_sent_witness :
  is_Some (_messageCallbacks (run reconnecting_session initial).1 !! 2)
  ∧ 2 ∈ sent_ids (run reconnecting_session initial).2.
Proof.
  assert (is_Some (_messageCallbacks (run reconnecting_session initial).1
                     !! 2)) as Hid by (by eexists).
  split; [exact Hid|].
  exact (table_keys_were_sent reconnecting_session 2 Hid).
Defined.

(** ** Binding the commands *)

Lemma bind_commands_lookup (d : Domain) (k : string) :
  bind_commands d !! k
  = (λ c, mkBound (domain d +:+ "." +:+ k) (parameters c))
      <$> declared_command d k.
Proof.
  unfold bind_commands, declared_command.
  induction (commands d) as [|c l IH] using rev_ind; [done|].
  rewrite foldl_snoc, filter_app, last_app, filter_singleton by done.
  destruct (decide (command_name c = k)) as [<-|Hne].
  - by rewrite lookup_insert_eq.
  - rewrite lookup_insert_ne by done. cbn [last]. apply IH.
Qed.


Lemma init_objects theConfig domains exports :
  objects (init theConfig domains exports)
  = (objects exports + length domains)%nat.
Proof.
  unfold init. induction domains as [|d l IH] using rev_ind.
  - cbn. lia.
  - rewrite foldl_snoc, length_app. cbn. rewrite IH. lia.
Qed.

Lemma declared_at_domain domains k :
  snd <$> declared_at domains k = declared_domain domains k.
Proof.
  unfold declared_at, declared_domain.
  induction domains as [|d l IH] using rev_ind; [done|].
  rewrite imap_app, !filter_app, !last_app. cbn [imap].
  rewrite !(filter_singleton _ _ []). cbn [snd].
  destruct (decide (domain d = k)) as [Hk|Hk]; [done|]. cbn [last]. apply IH.
Qed.

Lemma declared_at_range domains k i d :
  declared_at domains k = Some (i, d) →
  (i < length domains)%nat ∧ domains !! i = Some d ∧ domain d = k.
Proof.
  unfold declared_at. intros Hlast%last_Some_elem_of.
  apply list_elem_of_filter in Hlast as [Hk Hin].
  apply list_elem_of_lookup in Hin as [j Hj].
  rewrite list_lookup_imap in Hj.
  destruct (domains !! j) as [d'|] eqn:Hd'; [|done].
  cbn in Hj. simplify_eq. split; [|done]. by apply lookup_lt_Some in Hd'.
Qed.

Lemma init_lookup theConfig (domains : list Domain) (exports : Exports)
    (k : string) :
  members (init theConfig domains exports) !! k
  = match declared_at domains k with
    | Some (i, d) =>
        Some (mkDomainObject (objects exports + i) (bind_commands d))
    | None => members exports !! k
    end.
Proof.
  unfold declared_at.
  induction domains as [|d l IH] using rev_ind; [done|].
  pose proof (init_objects theConfig l exports) as Hobjects.
  unfold init in *. rewrite foldl_snoc. cbn [bind_domain members].
  rewrite imap_app, filter_app, last_app. cbn [imap].
  rewrite (filter_singleton _ _ []). cbn [snd].
  destruct (decide (domain d = k)) as [<-|Hne].
  - rewrite lookup_insert_eq, Hobjects, Nat.add_0_r. done.
  - rewrite lookup_insert_ne by done. cbn [last]. apply IH.
Qed.



Lemma last_filter_NoDup {A} (f : A → string) (l : list A) (x : A) :
  NoDup (f <$> l) → x ∈ l → last (filter (λ y, f y = f x) l) = Some x.
Proof.
  intros Hnodup Hx. apply list_elem_of_split in Hx as (l1 & l2 & ->).
  rewrite fmap_app, fmap_cons in Hnodup.
  apply NoDup_app in Hnodup as (_ & _ & Hnodup).
  apply NoDup_cons in Hnodup as [Hnotin _].
  rewrite filter_app, filter_cons_True by done.
  replace (filter (λ y, f y = f x) l2) with (@nil A); [apply last_snoc|].
  symmetry. clear -Hnotin. induction l2 as [|y l2 IH]; [done|].
  rewrite fmap_cons in Hnotin. apply not_elem_of_cons in Hnotin as [Hy Hl2].
  rewrite filter_cons_False by done. by apply IH.
Qed.

(** X19.  Every command of a description without repeated names can be
    called: after [init], [Domain.command(...)] is [_send] with the method
    [Domain.command] and the parameters of the command. *)
Theorem declared_command_callable (theConfig : value)
    (domains : list Domain) (exports : Exports)
    (d : Domain) (c : CommandDescriptor) (varargs : list value) (s : State) :
  NoDup (domain <$> domains) →
  NoDup (command_name <$> commands d) →
  d ∈ domains →
  c ∈ commands d →
  call (init theConfig domains exports) (domain d) (command_name c) varargs s
  = _send (domain d +:+ "." +:+ command_name c) (parameters c) varargs s.
Proof.
  intros Hdomains Hcommands Hd Hc.
  assert (∃ o, members (init theConfig domains exports) !! domain d = Some o
               ∧ bound o = bind_commands d) as (o & Hobj & Ho).
  { rewrite init_lookup.
    pose proof (declared_at_domain domains (domain d)) as Hat.
    unfold declared_domain in Hat.
    rewrite (last_filter_NoDup domain) in Hat by done.
    destruct (declared_at domains (domain d)) as [[i d']|]; [|done].
    cbn in Hat. simplify_eq. by eexists. }
  assert (bound o !! command_name c
          = Some (mkBound (domain d +:+ "." +:+ command_name c)
                          (parameters c))) as Hbound.
  { rewrite Ho, bind_commands_lookup. unfold declared_command.
    by rewrite (last_filter_NoDup command_name). }
  by rewrite (call_bound _ _ _ _ _ _ _ Hobj Hbound).
Qed.

Lemma declared_command_callable_witness :
  scenario_A connected_first
  = _send "Page.navigate" [mkParameter "url" false]
          [VStr "http://example.com"; VFun (UserFn 0)] connected_first.
Proof.
  apply (declared_command_callable VUndefined page_schema ∅
           (mkDomain "Page" [mkCommand "navigate" [mkParameter "url" false]])
           (mkCommand "navigate" [mkParameter "url" false])).
  - apply (bool_decide_unpack _). vm_compute. reflexivity.
  - apply (bool_decide_unpack _). vm_compute. reflexivity.
  - by left.
  - by left.
Defined.

(** X20.  Initialising again binds the same commands to new objects.
    After a second [init] with the same description every domain has the
    command functions it had, on an object that is not the object of
    before: what was attached to the old object, listeners included, is
    not on the new one. *)
Theorem init_again_new_objects (theConfig again : value)
    (domains : list Domain) (exports : Exports) (k : string) (d : Domain) :
  declared_domain domains k = Some d →
  let once := init theConfig domains exports in
  let twice := init again domains once in
  ∃ o1 o2,
    members once !! k = Some o1
    ∧ members twice !! k = Some o2
    ∧ bound o2 = bound o1
    ∧ (object_id o1 < objects once)%nat
    ∧ (objects once ≤ object_id o2)%nat.
Proof.
  intros Hd once twice. unfold twice, once. clear once twice.
  rewrite !init_lookup, init_objects.
  rewrite <- declared_at_domain in Hd.
  destruct (declared_at domains k) as [[i d']|] eqn:Hat; [|done].
  destruct (declared_at_range _ _ _ _ Hat) as (Hi & _ & _).
  do 2 eexists. repeat split; cbn; lia.
Qed.

Lemma init_again_new_objects_witness :
  declared_domain events_schema "Page" = Some (mkDomain "Page"
      [mkCommand "navigate" [mkParameter "url" false]])
  ∧ object_id <$> members (init VUndefined events_schema ∅) !! "Page"
    = Some 0%nat
  ∧ object_id
      <$> members (init VUndefined events_schema
                     (init VUndefined events_schema ∅)) !! "Page"
    = Some 2%nat.
Proof.
  destruct (init_again_new_objects VUndefined VUndefined events_schema ∅
              "Page" _ eq_refl) as (o1 & o2 & H1 & H2 & _).
  split; [reflexivity|]. split; reflexivity.
Defined.

(** ** No Deferred is settled twice *)

Lemma split_callback_last varargs args f :
  split_callback varargs = (args, Some f) → last varargs = Some (VFun f).
Proof.
  unfold split_callback. destruct (last varargs) as [[]|]; naive_solver.
Qed.

Lemma settled_app t1 t2 : settled (t1 ++ t2) = (settled t1 ++ settled t2)%list.
Proof. unfold settled, settlements. by rewrite omap_app, fmap_app. Qed.

Lemma _send_deferred_step method signature varargs s :
  callable (Command method signature varargs) →
  deferred_step s (final (_send method signature varargs s))
    (settled (trace (_send method signature varargs s))).
Proof.
  intros Hcallable. destruct (_port s) as [p|] eqn:Hp.
  - destruct (split_callback varargs) as [args [f|]] eqn:Hsplit.
    + rewrite (_send_callback _ _ _ _ _ _ _ Hp Hsplit).
      apply split_callback_last in Hsplit.
      destruct f as [k|d]; [|by destruct (Hcallable d)].
      by apply (step_store_callback _ _ _ (_messageId s) k).
    + rewrite (_send_promise _ _ _ _ _ _ Hp Hsplit).
      by apply (step_store_promise _ _ _ (_messageId s)).
  - rewrite _send_disconnected by done. by apply step_keep.
Qed.

Lemma _onMessage_deferred_step response s :
  deferred_step s (final (_onMessage response s))
    (settled (trace (_onMessage response s))).
Proof.
  destruct (_onMessage_cases response s)
    as [[_ ->]|[(result & callback & Hc & ->)
               |[(? & ->)|[(? & ? & ? & ? & ->)| ->]]]];
    try by apply step_keep.
  destruct (msg_id response) as [i|] eqn:Hid; [|done]. simpl in Hc.
  destruct callback as [k|d].
  - apply step_keep; try done. apply delete_subseteq.
  - by apply (step_deliver _ _ _ i d).
Qed.

Lemma perform_deferred_step a s :
  callable a →
  deferred_step s (final (perform a s)) (settled (trace (perform a s))).
Proof.
  destruct a as [method signature varargs|response| | | | |error|c ds];
    intros Hcallable; cbn [perform].
  - pose proof (_send_deferred_step method signature varargs s Hcallable).
    unfold mbind, M_bind.
    destruct (_send method signature varargs s) as [[?|?] s' t];
      cbn [final trace mret M_ret] in *; by rewrite ?app_nil_r.
  - pose proof (_onMessage_deferred_step response s).
    unfold mbind, M_bind.
    destruct (_onMessage response s) as [[?|?] s' t];
      cbn [final trace mret M_ret] in *; by rewrite ?app_nil_r.
  - by apply step_keep.
  - connection_cases s; by apply step_keep.
  - connection_cases s; by apply step_keep.
  - connection_cases s; apply step_attempt; try done;
      unfold attempt_settled; by rewrite Hd.
  - destruct (truthy error) eqn:He.
    + rewrite attachDebugger_callback_fails by done.
      apply step_answer; try done. unfold attempt_settled. cbn.
      by destruct (_connectDeferred s).
    + rewrite attachDebugger_callback_opens by done.
      apply step_answer; try done. unfold attempt_settled. cbn.
      by destruct (_connectDeferred s).
  - by apply step_keep.
Qed.

Lemma deferred_step_sound s s' past now :
  deferreds_sound s past →
  deferred_step s s' now →
  deferreds_sound s' (past ++ now).
Proof.
  intros (Hlive & Hpast & Hnodup & Hinj & Happart) Hstep.
  assert (∀ d i, _messageCallbacks s !! i = Some (ResolveFn d) →
                 (d < deferreds s)%nat) as Htable.
  { intros d i Hi. apply Hlive. right. eauto. }
  destruct Hstep as [Ht Hc Hn ->|i k Ht Hc Hn ->|i Ht Hc Hn ->
                    |i d Hi Ht Hc Hn ->|Ht Hc Hn ->|Ht Hc Hn ->];
    unfold deferreds_sound, live; rewrite ?app_nil_r, ?Ht, ?Hc, ?Hn.
  - (* nothing stored *)
    assert (∀ i f, _messageCallbacks s' !! i = Some f →
                   _messageCallbacks s !! i = Some f) as Hsub
      by (intros; by eapply lookup_weaken).
    repeat split.
    + intros d [?|[i Hi]]; apply Hlive; [by left|right; eauto].
    + by apply Hpast.
    + intros [?|[i Hi]]; eapply Hpast; [done|by left|done|right; eauto].
    + done.
    + intros i j d Hi Hj. eapply Hinj; eauto.
    + intros d i Hd Hi. eapply Happart; eauto.
  - (* a callback stored *)
    assert (∀ j d, <[i:=UserFn k]> (_messageCallbacks s) !! j
                   = Some (ResolveFn d) →
                   _messageCallbacks s !! j = Some (ResolveFn d)) as Hsub.
    { intros j d. rewrite lookup_insert. case_decide; [done|tauto]. }
    repeat split.
    + intros d [?|[j Hj]]; apply Hlive; [by left|right; eauto].
    + by apply Hpast.
    + intros [?|[j Hj]]; eapply Hpast; [done|by left|done|right; eauto].
    + done.
    + intros j1 j2 d Hj1 Hj2. eapply Hinj; eauto.
    + intros d j Hd Hj. eapply Happart; eauto.
  - (* a promise stored *)
    assert (∀ j d, <[i:=ResolveFn (deferreds s)]> (_messageCallbacks s) !! j
                   = Some (ResolveFn d) →
                   (j = i ∧ d = deferreds s)
                   ∨ (j ≠ i ∧ _messageCallbacks s !! j = Some (ResolveFn d)))
      as Hcases.
    { clear. intros j d. rewrite lookup_insert. case_decide; naive_solver. }
    repeat split.
    + intros d [Hd|[j Hj]].
      * assert (d < deferreds s)%nat by (apply Hlive; by left). lia.
      * apply Hcases in Hj as [[_ ->]|[_ Hj]]; [lia|].
        apply Htable in Hj. lia.
    + apply Hpast in H. lia.
    + intros [Hd|[j Hj]].
      * eapply Hpast; [done|by left].
      * apply Hcases in Hj as [[_ ->]|[_ Hj]].
        -- apply Hpast in H. lia.
        -- eapply Hpast; [done|right; eauto].
    + done.
    + intros j1 j2 d Hj1 Hj2.
      apply Hcases in Hj1 as [[-> ->]|[Hne1 Hj1]];
        apply Hcases in Hj2 as [[-> Heq]|[Hne2 Hj2]]; try done.
      * apply Htable in Hj2. lia.
      * apply Htable in Hj1. lia.
      * eapply Hinj; eauto.
    + intros d j Hd Hj. apply Hcases in Hj as [[_ ->]|[_ Hj]].
      * assert (deferreds s < deferreds s)%nat by (apply Hlive; by left). lia.
      * eapply Happart; eauto.
  - (* a promise resolved *)
    assert (∀ j d', delete i (_messageCallbacks s) !! j = Some (ResolveFn d') →
                    j ≠ i ∧ _messageCallbacks s !! j = Some (ResolveFn d'))
      as Hsub.
    { clear. intros j d'. rewrite lookup_delete.
      case_decide; naive_solver. }
    assert (¬ (_connectDeferred s = Some d
               ∨ ∃ j, delete i (_messageCallbacks s) !! j
                      = Some (ResolveFn d))) as Hgone.
    { intros [Hd|[j Hj]]; [by eapply Happart|].
      apply Hsub in Hj as [Hne Hj]. apply Hne. eapply Hinj; eauto. }
    repeat split.
    + intros d' [?|[j Hj]]; apply Hlive; [by left|].
      apply Hsub in Hj as [_ Hj]. right. eauto.
    + apply elem_of_app in H as [H|H]; [by apply Hpast|].
      apply list_elem_of_singleton in H as ->. eapply Htable; eauto.
    + apply elem_of_app in H as [H|H].
      * intros [?|[j Hj]]; eapply Hpast; [done|by left|done|].
        apply Hsub in Hj as [_ Hj]. right. eauto.
      * by apply list_elem_of_singleton in H as ->.
    + apply NoDup_app. repeat split; [done| |apply NoDup_singleton].
      intros d' Hd' ->%list_elem_of_singleton.
      eapply Hpast; [done|right; eauto].
    + intros j1 j2 d' Hj1 Hj2. apply Hsub in Hj1 as [_ Hj1].
      apply Hsub in Hj2 as [_ Hj2]. eapply Hinj; eauto.
    + intros d' j Hd' Hj. apply Hsub in Hj as [_ Hj]. eapply Happart; eauto.
  - (* a new attempt *)
    unfold attempt_settled.
    repeat split.
    + intros d [[= <-]|[j Hj]]; [lia|]. apply Htable in Hj. lia.
    + apply elem_of_app in H as [H|H]; [apply Hpast in H; lia|].
      destruct (_connectDeferred s) as [d0|] eqn:Hd0;
        [|by apply elem_of_nil in H].
      apply list_elem_of_singleton in H as ->.
      assert (d0 < deferreds s)%nat by (apply Hlive; by left). lia.
    + apply elem_of_app in H as [H|H].
      * intros [[= <-]|[j Hj]]; [apply Hpast in H; lia|].
        eapply Hpast; [done|right; eauto].
      * destruct (_connectDeferred s) as [d0|] eqn:Hd0;
          [|by apply elem_of_nil in H].
        apply list_elem_of_singleton in H as ->.
        intros [[= <-]|[j Hj]]; [|by eapply Happart].
        assert (deferreds s < deferreds s)%nat by (apply Hlive; by left).
        lia.
    + apply NoDup_app. repeat split; [done| |].
      * intros d Hd Hnow. destruct (_connectDeferred s) as [d0|] eqn:Hd0;
          [|by apply elem_of_nil in Hnow].
        apply list_elem_of_singleton in Hnow as ->.
        eapply Hpast; [done|by left].
      * destruct (_connectDeferred s); [apply NoDup_singleton|constructor].
    + done.
    + intros d j [= <-] Hj. apply Htable in Hj. lia.
  - (* the attempt answered *)
    unfold attempt_settled.
    repeat split.
    + intros d [?|[j Hj]]; [done|]. eapply Htable; eauto.
    + apply elem_of_app in H as [H|H]; [by apply Hpast|].
      destruct (_connectDeferred s) as [d0|] eqn:Hd0;
        [|by apply elem_of_nil in H].
      apply list_elem_of_singleton in H as ->. apply Hlive. by left.
    + apply elem_of_app in H as [H|H].
      * intros [?|[j Hj]]; [done|]. eapply Hpast; [done|right; eauto].
      * destruct (_connectDeferred s) as [d0|] eqn:Hd0;
          [|by apply elem_of_nil in H].
        apply list_elem_of_singleton in H as ->.
        intros [?|[j Hj]]; [done|]. by eapply Happart.
    + apply NoDup_app. repeat split; [done| |].
      * intros d Hd Hnow. destruct (_connectDeferred s) as [d0|] eqn:Hd0;
          [|by apply elem_of_nil in Hnow].
        apply list_elem_of_singleton in Hnow as ->.
        eapply Hpast; [done|by left].
      * destruct (_connectDeferred s); [apply NoDup_singleton|constructor].
    + done.
    + done.
Qed.

Lemma initial_deferreds_sound : deferreds_sound initial [].
Proof.
  split; [|split; [|split; [|split]]]; try done.
  - intros d [?|[i ?]]; done.
  - by intros d ?%elem_of_nil.
  - constructor.
Qed.

Lemma run_deferreds_sound actions s past :
  Forall callable actions →
  deferreds_sound s past →
  deferreds_sound (run actions s).1
    (past ++ settled (run actions s).2)%list.
Proof.
  intros Hcallable. revert s past.
  induction Hcallable as [|a actions Ha _ IH]; intros s past Hsound.
  - by rewrite app_nil_r.
  - cbn [run]. destruct (run actions (final (perform a s))) as [s' t] eqn:Hrun.
    cbn [fst snd]. rewrite settled_app, app_assoc.
    specialize (IH (final (perform a s))
                  (past ++ settled (trace (perform a s)))%list).
    rewrite Hrun in IH. apply IH.
    eapply deferred_step_sound; [done|by apply perform_deferred_step].
Qed.

(** X21.  Whatever is sent, received, closed and connected, in whatever
    order, no Deferred is resolved or rejected twice, as long as no caller
    hands a command the resolver of a Deferred of this module as its
    callback. *)
Theorem deferred_settled_once (actions : list action) :
  Forall callable actions →
  NoDup (settled (run actions initial).2).
Proof.
  intros Hcallable.
  pose proof (run_deferreds_sound actions initial [] Hcallable
                initial_deferreds_sound) as (_ & _ & Hnodup & _).
  done.
Qed.

Lemma deferred_settled_once_witness :
  Forall callable cancelling_session
  ∧ settled (run cancelling_session initial).2 = [0; 1; 2]%nat
  ∧ NoDup (settled (run cancelling_session initial).2).
Proof.
  assert (Forall callable cancelling_session) as Hcallable.
  { repeat constructor. intros d. discriminate. }
  split; [exact Hcallable|]. split; [reflexivity|].
  exact (deferred_settled_once cancelling_session Hcallable).
Defined.

(** ** Envelopes go to the port in use *)

Lemma port_in_use_app t1 t2 current :
  port_in_use current (t1 ++ t2)
  = port_in_use current t1 ≫= λ next, port_in_use next t2.
Proof.
  revert current. induction t1 as [|e t1 IH]; intros current; [done|].
  cbn [app port_in_use]. destruct (port_step current e); [apply IH|done].
Qed.

Lemma _send_port_in_use method signature varargs s current :
  port_known s current →
  port_in_use current (trace (_send method signature varargs s))
  = Some current
  ∧ _port (final (_send method signature varargs s)) = _port s.
Proof.
  intros Hknown. destruct (_port s) as [p|] eqn:Hp;
    [|by rewrite _send_disconnected].
  specialize (Hknown p Hp) as ->.
  destruct (split_callback varargs) as [args [f|]] eqn:Hsplit.
  - rewrite (_send_callback _ _ _ _ _ _ _ Hp Hsplit). cbn.
    by rewrite decide_True.
  - rewrite (_send_promise _ _ _ _ _ _ Hp Hsplit). cbn.
    by rewrite decide_True.
Qed.

Lemma _onMessage_port_in_use response s current :
  port_in_use current (trace (_onMessage response s)) = Some current
  ∧ _port (final (_onMessage response s)) = _port s.
Proof.
  destruct (_onMessage_cases response s)
    as [[_ ->]|[(result & callback & _ & ->)
               |[(? & ->)|[(? & ? & ? & ? & ->)| ->]]]];
    try done.
  by destruct callback.
Qed.

Lemma perform_port_in_use a s current :
  port_known s current →
  ∃ next,
    port_in_use current (trace (perform a s)) = Some next
    ∧ port_known (final (perform a s)) next.
Proof.
  intros Hknown.
  destruct a as [method signature varargs|response| | | | |error|c ds];
    cbn [perform].
  - destruct (_send_port_in_use method signature varargs s current Hknown)
      as [Huse Hport].
    exists current. unfold mbind, M_bind.
    destruct (_send method signature varargs s) as [[?|?] s' t];
      cbn [final trace mret M_ret] in *; rewrite ?app_nil_r;
      (split; [done|]); unfold port_known; by rewrite Hport.
  - destruct (_onMessage_port_in_use response s current) as [Huse Hport].
    exists current. unfold mbind, M_bind.
    destruct (_onMessage response s) as [[?|?] s' t];
      cbn [final trace mret M_ret] in *; rewrite ?app_nil_r;
      (split; [done|]); unfold port_known; by rewrite Hport.
  - by exists current.
  - destruct (_port s) as [p|] eqn:Hp.
    + specialize (Hknown p Hp) as ->. exists None.
      run_connection. rewrite Hp. cbn. by rewrite decide_True.
    + exists current. run_connection. by rewrite Hp.
  - destruct (_port s) as [p|] eqn:Hp.
    + specialize (Hknown p Hp) as ->. exists None.
      run_connection. rewrite Hp. cbn. by rewrite decide_True.
    + exists current. run_connection. by rewrite Hp.
  - destruct (_port s) as [p|] eqn:Hp.
    + specialize (Hknown p Hp) as ->. exists None.
      run_connection. destruct (_connectDeferred s); cbn; rewrite Hp; cbn;
        by rewrite decide_True.
    + exists current. run_connection.
      destruct (_connectDeferred s); cbn; by rewrite Hp.
  - destruct (truthy error) eqn:He.
    + rewrite attachDebugger_callback_fails by done.
      exists current. cbn. by destruct (_connectDeferred s).
    + rewrite attachDebugger_callback_opens by done.
      exists (Some (_portId s)). cbn.
      split; [by destruct (_connectDeferred s)|].
      by intros p [= <-].
  - by exists current.
Qed.

Lemma run_port_in_use actions : ∀ s current,
  port_known s current →
  is_Some (port_in_use current (run actions s).2).
Proof.
  induction actions as [|a actions IH]; intros s current Hknown; [done|].
  rewrite run_cons. cbn [snd]. rewrite port_in_use_app.
  destruct (perform_port_in_use a s current Hknown) as (next & -> & Hnext).
  by apply IH.
Qed.

(** X28.  Every envelope goes to the port in use.  From the moment the
    module is loaded and whatever happens, a command is posted to the port
    that was opened last, and never to a port that the module has
    disconnected since. *)
Theorem envelopes_to_port_in_use (actions : list action) :
  is_Some (port_in_use None (run actions initial).2).
Proof. by apply run_port_in_use. Qed.

(** * The file system of the shell *)

(** ** Strings *)

Lemma substring_whole s : substring 0 (String.length s) s = s.
Proof. induction s as [|c s IH]; [done|]. cbn. by rewrite IH. Qed.

Lemma substring_prefix a b : substring 0 (String.length a) (a +:+ b) = a.
Proof.
  induction a as [|c a IH]; [by destruct b|].
  rewrite append_cons. cbn. by rewrite IH.
Qed.

Lemma substring_suffix a b :
  substring (String.length a) (String.length b) (a +:+ b) = b.
Proof.
  induction a as [|c a IH]; [apply substring_whole|].
  by rewrite append_cons.
Qed.

Lemma substring_nothing n s : substring n 0 s = "".
Proof.
  revert n. induction s as [|c s IH]; intros [|n]; cbn; done.
Qed.

(** [substr] where [rename] uses it: from the start, and to the end. *)
Lemma substr_head s k :
  0 ≤ k ≤ Z.of_nat (String.length s) →
  fs.substr s 0 (Some k) = substring 0 (Z.to_nat k) s.
Proof.
  intros Hk. unfold fs.substr. change (0 <? 0) with false. cbn iota.
  replace (Z.min (Z.max k 0) (Z.of_nat (String.length s) - 0))
    with k by lia.
  destruct (Z.leb_spec k 0); [|done].
  replace k with 0 by lia. by rewrite substring_nothing.
Qed.

Lemma substr_tail s k :
  0 ≤ k ≤ Z.of_nat (String.length s) →
  fs.substr s k None
  = substring (Z.to_nat k) (Z.to_nat (Z.of_nat (String.length s) - k)) s.
Proof.
  intros Hk. unfold fs.substr.
  destruct (Z.ltb_spec k 0); [lia|].
  destruct (Z.leb_spec (Z.of_nat (String.length s) - k) 0); [|done].
  replace (Z.of_nat (String.length s) - k) with 0 by lia.
  by rewrite substring_nothing.
Qed.

Lemma length_append a b :
  String.length (a +:+ b) = (String.length a + String.length b)%nat.
Proof.
  induction a as [|c a IH]; [done|]. rewrite append_cons. cbn. by rewrite IH.
Qed.

Lemma indexOf_bounds c s : -1 ≤ fs.indexOf c s.
Proof.
  induction s as [|a s IH]; cbn [fs.indexOf]; [done|].
  destruct (Ascii.eqb a c); [done|].
  destruct (fs.indexOf c s) as [|i|[]]; lia.
Qed.

(** Where the last occurrence of a character is: nowhere, or between a
    string and a string in which it does not occur. *)
Lemma lastIndexOf_split c s :
  (fs.lastIndexOf c s = -1 ∧ fs.indexOf c s = -1)
  ∨ ∃ a b, s = a +:+ String c b
           ∧ fs.indexOf c b = -1
           ∧ fs.lastIndexOf c s = Z.of_nat (String.length a).
Proof.
  induction s as [|x s IH]; [by left|]. cbn [fs.lastIndexOf fs.indexOf].
  destruct IH as [[Hlast Hfirst]|(a & b & -> & Hb & ->)].
  - rewrite Hlast, Hfirst.
    destruct (Ascii.eqb_spec x c) as [->|Hne]; [|by left].
    right. by exists "", s.
  - right. exists (String x a), b. rewrite append_cons.
    split; [done|]. split; [done|].
    destruct (Z.of_nat (String.length a)) as [|i|[]] eqn:Hi;
      cbn [String.length]; lia.
Qed.

Lemma indexOf_append c a b :
  fs.indexOf c (a +:+ String c b) ≠ -1.
Proof.
  induction a as [|x a IH].
  - change (fs.indexOf c (String c b) ≠ -1). cbn [fs.indexOf].
    by rewrite Ascii.eqb_refl.
  - rewrite append_cons. cbn [fs.indexOf].
    destruct (Ascii.eqb x c); [done|].
    pose proof (indexOf_bounds c (a +:+ String c b)).
    destruct (fs.indexOf c (a +:+ String c b)) as [|i|[]]; try done; lia.
Qed.

Lemma last_split_unique c a b a' b' :
  fs.indexOf c b = -1 → fs.indexOf c b' = -1 →
  a +:+ String c b = a' +:+ String c b' →
  a = a' ∧ b = b'.
Proof.
  intros Hb Hb'. revert a'.
  induction a as [|x a IH]; intros [|y a'] Heq.
  - change (String c b = String c b') in Heq. by simplify_eq.
  - change (String c b = String y (a' +:+ String c b')) in Heq.
    simplify_eq. by apply indexOf_append in Hb.
  - change (String x (a +:+ String c b) = String c b') in Heq.
    simplify_eq. by apply indexOf_append in Hb'.
  - rewrite !append_cons in Heq. simplify_eq.
    destruct (IH a') as [-> ->]; done.
Qed.

(** The two parts of a path with a separator, and of one without. *)
Lemma newDirName_newFileName_split a b :
  fs.indexOf "/" b = -1 →
  fs.newDirName (a +:+ String "/" b) = a +:+ "/"
  ∧ fs.newFileName (a +:+ String "/" b) = b.
Proof.
  intros Hb. unfold fs.newDirName, fs.newFileName.
  destruct (lastIndexOf_split "/" (a +:+ String "/" b))
    as [[_ Habsent]|(a' & b' & Heq & Hb' & Hlast)].
  { by apply indexOf_append in Habsent. }
  destruct (last_split_unique "/" a' b' a b Hb' Hb) as [-> ->]; [done|].
  assert (a +:+ String "/" b = (a +:+ "/") +:+ b) as Hassoc.
  { clear. induction a as [|x a IH]; [done|].
    rewrite !append_cons. by rewrite IH. }
  assert (String.length (a +:+ "/") = S (String.length a)) as Hlen.
  { rewrite length_append. cbn. lia. }
  rewrite Hlast.
  rewrite substr_head, substr_tail
    by (rewrite length_append; cbn [String.length]; lia).
  replace (Z.to_nat (Z.of_nat (String.length a) + 1))
    with (String.length (a +:+ "/")) by lia.
  replace (Z.to_nat (Z.of_nat (String.length (a +:+ String "/" b))
                     - (Z.of_nat (String.length a) + 1)))
    with (String.length b)
    by (rewrite length_append; cbn [String.length]; lia).
  rewrite Hassoc. split; [apply substring_prefix|apply substring_suffix].
Qed.

Lemma newDirName_newFileName_plain s :
  fs.indexOf "/" s = -1 →
  fs.newDirName s = "" ∧ fs.newFileName s = s.
Proof.
  intros Hs. unfold fs.newDirName, fs.newFileName.
  destruct (lastIndexOf_split "/" s) as [[-> _]|(a & b & -> & _ & _)].
  - rewrite substr_head, substr_tail by (cbn; lia).
    change (Z.to_nat (-1 + 1)) with 0%nat.
    replace (Z.to_nat (Z.of_nat (String.length s) - (-1 + 1)))
      with (String.length s) by lia.
    split; [by destruct s|apply substring_whole].
  - by apply indexOf_append in Hs.
Qed.

(** ** The two parts of a new path *)

(** X22.  [rename] cuts the new path after its last separator.  The two
    parts put together are the path again, the second part has no separator
    in it, and the first ends with one, or is empty when the path has
    none. *)
Theorem rename_splits_path (newPath : string) :
  fs.newDirName newPath +:+ fs.newFileName newPath = newPath
  ∧ fs.occurs "/" (fs.newFileName newPath) = false
  ∧ (if fs.occurs "/" newPath
     then ∃ d, fs.newDirName newPath = d +:+ "/"
     else fs.newDirName newPath = "").
Proof.
  unfold fs.occurs.
  destruct (lastIndexOf_split "/" newPath)
    as [[_ Habsent]|(a & b & -> & Hb & _)].
  - destruct (newDirName_newFileName_plain newPath Habsent) as [-> ->].
    by rewrite Habsent.
  - destruct (newDirName_newFileName_split a b Hb) as [-> ->].
    rewrite Hb. split; [|split; [done|]].
    + clear. induction a as [|x a IH]; [done|].
      rewrite !append_cons. by rewrite IH.
    + pose proof (indexOf_append "/" a b).
      destruct (fs.indexOf "/" (a +:+ String "/" b) =? -1) eqn:Hi; [lia|].
      by exists a.
Qed.

(** The two parts of a path, given the text. *)
Lemma rename_parts dir file :
  fs.occurs "/" file = false →
  dir = "" ∨ (∃ d, dir = d +:+ "/") →
  fs.newDirName (dir +:+ file) = dir ∧ fs.newFileName (dir +:+ file) = file.
Proof.
  unfold fs.occurs. intros Hfile%negb_false_iff%Z.eqb_eq [->|[d ->]].
  - by apply newDirName_newFileName_plain.
  - replace ((d +:+ "/") +:+ file) with (d +:+ String "/" file).
    + by apply newDirName_newFileName_split.
    + clear. induction d as [|x d IH]; [done|].
      rewrite !append_cons. by rewrite IH.
Qed.

(** ** What the functions ask, and what they report *)

(** X23.  What [rename] asks of the browser, for a new path given by its
    directory part (empty, or ending with a separator) and its file name
    (without separator).  It looks the old file up without creating it.
    When the file is found and the directory part is the root, it moves
    the entry found into the root under the file name.  Otherwise it has
    the directory named by the directory part created, also when this part
    is empty, and moves the entry found into the directory the browser
    returned, under the file name.  It asks nothing after a request the
    browser refused. *)
Theorem rename_destination (b : fs.browser) (n : nat)
    (oldPath dir file : string) (callback : nat) :
  fs.occurs "/" file = false →
  dir = "" ∨ (∃ d, dir = d +:+ "/") →
  let asked :=
    fs.requests (fs.exec b n (fs.rename oldPath (dir +:+ file) callback)) in
  let found := fs.getFile oldPath (Some false) in
  let wanted := fs.getDirectory dir (Some true) in
  match b n found with
  | inr _ => asked = [found]
  | inl fileEntry =>
      if decide (dir = "/")
      then asked = [found; fs.moveTo fileEntry fs.root file]
      else match b (S n) wanted with
           | inr _ => asked = [found; wanted]
           | inl dirEntry =>
               asked = [found; wanted;
                        fs.moveTo fileEntry (fs.opened dirEntry) file]
           end
  end.
Proof.
  intros Hfile Hdir asked found wanted. unfold asked, found, wanted.
  clear asked found wanted.
  destruct (rename_parts dir file Hfile Hdir) as [Hd Hf].
  unfold fs.rename. cbn [fs.exec]. rewrite Hd, Hf.
  destruct (b n (fs.getFile oldPath (Some false))) as [fileEntry|error];
    [|done].
  destruct (decide (dir = "/")) as [->|Hroot].
  - cbn [fs.exec String.eqb Ascii.eqb Bool.eqb]. cbn.
    by destruct (b (S n) _).
  - apply String.eqb_neq in Hroot. rewrite Hroot. cbn [fs.exec].
    destruct (b (S n) (fs.getDirectory dir (Some true)))
      as [dirEntry|error]; [|done].
    cbn [fs.exec]. by destruct (b (S (S n)) _).
Qed.

Lemma rename_destination_witness :
  fs.occurs "/" "home.html" = false
  ∧ fs.requests
      (fs.exec fs.example_browser 0
         (fs.rename "/index.html" "/css/home.html" 7))
    = [fs.getFile "/index.html" (Some false);
       fs.getDirectory "/css/" (Some true);
       fs.moveTo (fs.mkEntry 1 "index.html")
                 (fs.opened (fs.mkEntry 2 "css")) "home.html"].
Proof.
  split; [reflexivity|].
  exact (rename_destination fs.example_browser 0 "/index.html" "/css/"
           "home.html" 7 eq_refl (or_intror (ex_intro _ "/css" eq_refl))).
Defined.

(** X24.  What [rename] reports, and when.  It calls the callback once and
    writes nothing with [console.error]: the handler it creates is not
    used.  When the browser grants every request, the last of which is the
    move, the callback is given [NO_ERROR] alone; when the browser refuses
    one, the callback is given the error of that request as its only
    argument, where the other functions hand over an error and [null]. *)
Theorem rename_reports_raw_error (b : fs.browser) (n : nat)
    (oldPath newPath : string) (callback : nat) :
  let t := fs.exec b n (fs.rename oldPath newPath callback) in
  fs.errors t = []
  ∧ match fs.first_failure b n (fs.requests t) with
    | None =>
        fs.calls t = [(callback, [fs.Code fs.NO_ERROR])]
        ∧ ∃ fileEntry parent newName,
            last (fs.requests t) = Some (fs.moveTo fileEntry parent newName)
    | Some error => fs.calls t = [(callback, [fs.Failure error])]
    end.
Proof.
  unfold fs.rename. cbn [fs.exec].
  destruct (b n (fs.getFile oldPath (Some false))) as [fileEntry|error]
    eqn:Hfound; cbn [fs.exec]; [|by cbn; rewrite Hfound].
  destruct (String.eqb (fs.newDirName newPath) "/"); cbn [fs.exec].
  - destruct (b (S n) (fs.moveTo fileEntry fs.root (fs.newFileName newPath)))
      as [[]|error] eqn:Hmoved; cbn; rewrite Hfound, Hmoved; eauto 10.
  - destruct (b (S n) (fs.getDirectory (fs.newDirName newPath) (Some true)))
      as [dirEntry|error] eqn:Hmade; cbn [fs.exec];
      [|by cbn; rewrite Hfound, Hmade].
    destruct (b (S (S n))
                (fs.moveTo fileEntry (fs.opened dirEntry)
                   (fs.newFileName newPath)))
      as [[]|error] eqn:Hmoved; cbn; rewrite Hfound, Hmade, Hmoved; eauto 10.
Qed.

(** X25.  What [stat] tells.  It logs no error.  The root is a directory
    without the browser being asked.  Any other path is looked up once,
    without creating anything, as a file when a dot occurs in it and as a
    directory otherwise.  The callback is called once: when the browser
    finds the entry (or is not asked), with [NO_ERROR] and the statistics
    of what the path was looked up as; when the browser refuses, with
    [ERR_NOT_FOUND] and an empty object, whatever the error was. *)
Theorem stat_contract (b : fs.browser) (n : nat) (path : string)
    (callback : nat) :
  let t := fs.exec b n (fs.stat path callback) in
  let dotted := fs.occurs "." path in
  let file := negb (String.eqb path "/") && dotted in
  fs.errors t = []
  ∧ fs.requests t
    = (if String.eqb path "/" then []
       else if dotted then [fs.getFile path (Some false)]
       else [fs.getDirectory path (Some false)])
  ∧ fs.calls t
    = [(callback,
        match fs.first_failure b n (fs.requests t) with
        | None => [fs.Code fs.NO_ERROR; fs.Stats file (negb file) 0]
        | Some _ => [fs.Code fs.ERR_NOT_FOUND; fs.EmptyObject]
        end)].
Proof.
  unfold fs.stat, fs.occurs. cbn [fs.exec].
  destruct (String.eqb path "/"); [done|].
  destruct (negb (fs.indexOf "." path =? -1)); cbn [fs.exec].
  - destruct (b n (fs.getFile path (Some false))) eqn:Hfound; cbn;
      by rewrite Hfound.
  - destruct (b n (fs.getDirectory path (Some false))) eqn:Hfound; cbn;
      by rewrite Hfound.
Qed.

(** X26.  [unlink] decides by the name what it removes.  A path with a dot
    in it is looked up as a file, without creating it, and the entry the
    browser returns is removed; a path without one is looked up as a
    directory, and the entry returned is removed with all it contains.
    Nothing is asked after a request the browser refused.  The callback is
    called once, with [NO_ERROR] alone when the removal was granted, and
    with the error of the refused request otherwise, after a line on the
    console. *)
Theorem unlink_by_name (b : fs.browser) (n : nat) (path : string)
    (callback : nat) :
  let t := fs.exec b n (fs.unlink path callback) in
  let file := fs.getFile path (Some false) in
  let directory := fs.getDirectory path None in
  (if fs.occurs "." path
   then fs.requests t
        = file :: match b n file with
                  | inl fileEntry => [fs.remove fileEntry]
                  | inr _ => []
                  end
   else fs.requests t
        = directory :: match b n directory with
                       | inl dirEntry => [fs.removeRecursively dirEntry]
                       | inr _ => []
                       end)
  ∧ fs.report b n (fs.requests t) callback [fs.Code fs.NO_ERROR] t.
Proof.
  unfold fs.unlink, fs.occurs, fs.report, fs.createErrorHandler,
    fs.error_line.
  cbn [fs.exec].
  destruct (negb (fs.indexOf "." path =? -1)); cbn [fs.exec].
  - destruct (b n (fs.getFile path (Some false))) as [fileEntry|error]
      eqn:Hfound; cbn [fs.exec];
      [|by cbn; rewrite Hfound; destruct error as [[]]].
    destruct (b (S n) (fs.remove fileEntry)) as [[]|error] eqn:Hremoved;
      cbn; rewrite Hfound, Hremoved; [done|by destruct error as [[]]].
  - destruct (b n (fs.getDirectory path None)) as [dirEntry|error]
      eqn:Hfound; cbn [fs.exec];
      [|by cbn; rewrite Hfound; destruct error as [[]]].
    destruct (b (S n) (fs.removeRecursively dirEntry)) as [[]|error]
      eqn:Hremoved;
      cbn; rewrite Hfound, Hremoved; [done|by destruct error as [[]]].
Qed.

(** X27.  What [readdir] and [makedir] ask and report.  [makedir] asks for
    the directory to be created and reports [NO_ERROR] alone.  [readdir]
    reads the root itself, and any other directory after looking it up
    without creating it, reading the entry the browser returned; it
    reports [NO_ERROR] with the names of the entries the browser listed, in
    the order of the browser.  When the browser refuses a request, nothing
    more is asked, and the callback is given the error of that request and
    [null], after a line on the console.  Either way the callback is called
    once. *)
Theorem failures_logged_and_passed_on (b : fs.browser) (n : nat)
    (path : string) (mode : value) (callback : nat) :
  let made := fs.exec b n (fs.makedir path mode callback) in
  let read := fs.exec b n (fs.readdir path callback) in
  let directory := fs.getDirectory path None in
  let listing dir k :=
    match b k (fs.readEntries dir) with
    | inl entries => [fs.Code fs.NO_ERROR; fs.Names (fs.name <$> entries)]
    | inr _ => []
    end in
  fs.requests made = [fs.getDirectory path (Some true)]
  ∧ fs.report b n (fs.requests made) callback [fs.Code fs.NO_ERROR] made
  ∧ (if String.eqb path "/"
     then fs.requests read = [fs.readEntries fs.root]
          ∧ fs.report b n (fs.requests read) callback (listing fs.root n) read
     else match b n directory with
          | inl dirEntry =>
              fs.requests read
              = [directory; fs.readEntries (fs.opened dirEntry)]
              ∧ fs.report b n (fs.requests read) callback
                  (listing (fs.opened dirEntry) (S n)) read
          | inr _ =>
              fs.requests read = [directory]
              ∧ fs.report b n (fs.requests read) callback [] read
          end).
Proof.
  unfold fs.readdir, fs.makedir, fs.report, fs.createErrorHandler,
    fs.error_line.
  cbn [fs.exec]. split; [|split].
  - by destruct (b n _).
  - destruct (b n (fs.getDirectory path (Some true))) as [dirEntry|error]
      eqn:Hmade; cbn; rewrite Hmade; [done|by destruct error as [[]]].
  - destruct (String.eqb path "/"); cbn [fs.exec].
    + destruct (b n (fs.readEntries fs.root)) as [entries|error] eqn:Hread;
        cbn; rewrite Hread; [done|by destruct error as [[]]].
    + destruct (b n (fs.getDirectory path None)) as [dirEntry|error]
        eqn:Hfound; cbn [fs.exec];
        [|by cbn; rewrite Hfound; destruct error as [[]]].
      destruct (b (S n) (fs.readEntries (fs.opened dirEntry)))
        as [entries|error] eqn:Hread;
        cbn; rewrite Hfound, Hread; [done|by destruct error as [[]]].
Qed.
